(** * acorn: node construction and the AST walker

    A shallow embedding of the two source files of the repository:
    the parser's node lifecycle functions ([startNode], [startNodeAt],
    [finishNode], [finishNodeAt]) and the walker module
    ([simple], [ancestor], the [findNode*] family, [make] and the [base]
    registry of node walkers). *)

From stdpp Require Import base option list strings gmap.

Set Warnings "-register-all".

Open Scope string_scope.
Open Scope Z_scope.
Open Scope list_scope.

(* ===================================================================== *)
(** * Part I: the node lifecycle functions of the parser *)
(* ===================================================================== *)

Module NodeLifecycle.

(** Line/column positions as the parser tracks them. *)
Record Position := mkPosition { line : Z; column : Z }.

(** The JavaScript values that reach the four functions as [pos] and [loc]
    arguments, and that end up in node properties. *)
Inductive jsval :=
| JUndefined
| JNum (z : Z)
| JPosition (p : Position)
| JArr (elems : list jsval).

(** [Array.isArray]. *)
Definition isArray (v : jsval) : bool :=
  match v with JArr _ => true | _ => false end.

(** [v === undefined]. *)
Definition is_undefined (v : jsval) : bool :=
  match v with JUndefined => true | _ => false end.

(** [v[i]] for an array [v]; an index out of range reads [undefined]. *)
Definition index (v : jsval) (i : nat) : jsval :=
  match v with
  | JArr l => default JUndefined (l !! i)
  | _ => JUndefined
  end.

(** Modelled from the spec: the [SourceLocation] class of ["./location"],
    which is not among the source files.  The spec describes [loc] as a
    structured start/end pair; the constructor receives the start and leaves
    the end open. *)
Record SourceLocation := mkSourceLocation { sl_start : jsval; sl_end : jsval }.

Definition new_SourceLocation (start : jsval) : SourceLocation :=
  {| sl_start := start; sl_end := JUndefined |}.

(** The options the four functions read. [directSourceFile] is tested for
    truthiness only; [None] stands for an unset (falsy) option. *)
Record Options := mkOptions {
  locations : bool;
  ranges : bool;
  directSourceFile : option string
}.

(** The fields of the parser (the [this] of the four functions) that are
    read here.  The class itself lives in ["./state"]. *)
Record Parser := mkParser {
  options : Options;
  start : Z;
  startLoc : Position;
  lastTokEnd : Z;
  lastTokEndLoc : Position
}.

(** The two flags of the global [process] object that are consulted. *)
Record Process := mkProcess {
  throwDeprecation : bool;
  traceDeprecation : bool
}.

(** An instance of [class Node {}]: every property is optional. *)
Record Node := mkNode {
  node_start : jsval;
  node_loc : option SourceLocation;
  node_sourceFile : option string;
  node_range : option (list jsval);
  node_type : option string;
  node_end : jsval
}.

Definition new_Node : Node :=
  {| node_start := JUndefined; node_loc := None; node_sourceFile := None;
     node_range := None; node_type := None; node_end := JUndefined |}.

Definition set_start (v : jsval) (n : Node) : Node :=
  mkNode v (node_loc n) (node_sourceFile n) (node_range n) (node_type n) (node_end n).
Definition set_loc (l : SourceLocation) (n : Node) : Node :=
  mkNode (node_start n) (Some l) (node_sourceFile n) (node_range n) (node_type n) (node_end n).
Definition set_sourceFile (s : string) (n : Node) : Node :=
  mkNode (node_start n) (node_loc n) (Some s) (node_range n) (node_type n) (node_end n).
Definition set_range (r : list jsval) (n : Node) : Node :=
  mkNode (node_start n) (node_loc n) (node_sourceFile n) (Some r) (node_type n) (node_end n).
Definition set_type (t : string) (n : Node) : Node :=
  mkNode (node_start n) (node_loc n) (node_sourceFile n) (node_range n) (Some t) (node_end n).
Definition set_end (v : jsval) (n : Node) : Node :=
  mkNode (node_start n) (node_loc n) (node_sourceFile n) (node_range n) (node_type n) v.

(** What a call can throw: an [Error] built by the function itself, or the
    engine's [TypeError] on a property access through [undefined]. *)
Inductive failure :=
| Error (msg : string)
| TypeError.

(** What is written to the console. *)
Inductive console :=
| console_error (msg : string)
| console_trace (msg : string).

(** A call either returns a value after some console output, or throws. *)
Inductive outcome (A : Type) :=
| Returns (a : A) (out : list console)
| Throws (f : failure).
Arguments Returns {A} a out.
Arguments Throws {A} f.

(** The returned value of a call, without its console output. *)
Definition result {A} (o : outcome A) : failure + A :=
  match o with
  | Returns a _ => inr a
  | Throws f => inl f
  end.


(** [node.range[1] = v] on an array: a short array is extended. *)
Definition store_1 (r : list jsval) (v : jsval) : list jsval :=
  match r with
  | [] => [JUndefined; v]
  | a :: rest => a :: v :: tail rest
  end.

(** [node.loc.end = v]; a [TypeError] when [node.loc] is [undefined]. *)
Definition set_loc_end (v : jsval) (node : Node) : failure + Node :=
  match node_loc node with
  | Some l => inr (set_loc (mkSourceLocation (sl_start l) v) node)
  | None => inl TypeError
  end.

(** [node.range[1] = v]; a [TypeError] when [node.range] is [undefined]. *)
Definition set_range_1 (v : jsval) (node : Node) : failure + Node :=
  match node_range node with
  | Some r => inr (set_range (store_1 r v) node)
  | None => inl TypeError
  end.

Definition startNode (this : Parser) : Node :=
  let node := new_Node in
  let node := set_start (JNum (start this)) node in
  let node := if locations (options this)
              then set_loc (new_SourceLocation (JPosition (startLoc this))) node
              else node in
  let node := match directSourceFile (options this) with
              | Some f => set_sourceFile f node
              | None => node
              end in
  let node := if ranges (options this)
              then set_range [JNum (start this); JNum 0] node
              else node in
  node.

Definition startNodeAt_deprecated : string :=
  "acron.parser: Usage of startNodeAt(start) is deprecated. please invoke by startNodeAt(start, loc).".
Definition startNodeAt_array_given : string :=
  "acron.parser: parameter 'pos' to member startNodeAt(pos, loc) is expected to be a number, array given.".

(** The [if (!warned) { ... }] block: throw, trace or print [msg]. *)
Definition deprecate (proc : Process) (msg : string) : outcome unit :=
  if throwDeprecation proc then Throws (Error msg)
  else if traceDeprecation proc then Returns tt [console_trace msg]
  else Returns tt [console_error msg].

Definition startNodeAt (this : Parser) (proc : Process) (pos loc : jsval)
    : outcome Node :=
  let node := new_Node in
  let flat : outcome (jsval * jsval) :=
    if isArray pos then
      if locations (options this) && is_undefined loc then
        let warned := false in
        let msg := startNodeAt_deprecated in
        match (if negb warned then deprecate proc msg else Returns tt []) with
        | Throws f => Throws f
        | Returns _ out =>
            (* flatten pos *)
            let loc := index pos 1 in
            let pos := index pos 0 in
            Returns (pos, loc) out
        end
      else Throws (Error startNodeAt_array_given)
    else Returns (pos, loc) [] in
  match flat with
  | Throws f => Throws f
  | Returns (pos, loc) out =>
      let node := set_start pos node in
      let node := if locations (options this)
                  then set_loc (new_SourceLocation loc) node else node in
      let node := match directSourceFile (options this) with
                  | Some f => set_sourceFile f node
                  | None => node
                  end in
      let node := if ranges (options this)
                  then set_range [pos; JNum 0] node else node in
      Returns node out
  end.

Definition finishNode (this : Parser) (node : Node) (type : string)
    : outcome Node :=
  let node := set_type type node in
  let node := set_end (JNum (lastTokEnd this)) node in
  match (if locations (options this)
         then set_loc_end (JPosition (lastTokEndLoc this)) node
         else inr node) with
  | inl f => Throws f
  | inr node =>
      match (if ranges (options this)
             then set_range_1 (JNum (lastTokEnd this)) node
             else inr node) with
      | inl f => Throws f
      | inr node => Returns node []
      end
  end.


End NodeLifecycle.

(* ===================================================================== *)
(** * Part II: registries as objects with a prototype chain ([make]) *)
(* ===================================================================== *)

Module Registry.

Section Objects.

(** The values stored under the properties of a registry (walker
    functions, as a rule).  [undefined] is what a read of a missing property
    yields. *)
Context {E : Type} (undefined : E).

(** An object: its own enumerable properties and its prototype link. *)
Record object := mkObject {
  own : gmap string E;
  proto : option nat
}.

(** The store of objects; a reference is an index into it. *)
Abbreviation heap := (list object).

(** [obj[key]]: the own property, else the prototype's, else [undefined].
    The chain is followed for at most [fuel] links. *)
Fixpoint get_fuel (fuel : nat) (h : heap) (obj : nat) (key : string) : E :=
  match fuel with
  | O => undefined
  | S fuel =>
      match h !! obj with
      | None => undefined
      | Some o =>
          match own o !! key with
          | Some v => v
          | None =>
              match proto o with
              | Some p => get_fuel fuel h p key
              | None => undefined
              end
          end
      end
  end.

(** Prototypes are older than the objects that inherit from them, so a
    chain starting at [obj] has at most [obj + 1] links. *)
Definition get (h : heap) (obj : nat) (key : string) : E :=
  get_fuel (S obj) h obj key.

(** [key in obj]: the property exists on [obj] or along its chain. *)
Fixpoint has_fuel (fuel : nat) (h : heap) (obj : nat) (key : string) : bool :=
  match fuel with
  | O => false
  | S fuel =>
      match h !! obj with
      | None => false
      | Some o =>
          match own o !! key with
          | Some _ => true
          | None =>
              match proto o with
              | Some p => has_fuel fuel h p key
              | None => false
              end
          end
      end
  end.

Definition has (h : heap) (obj : nat) (key : string) : bool :=
  has_fuel (S obj) h obj key.

(** The keys a [for (let key in obj)] loop goes through: the own ones, then
    the inherited ones that are not shadowed. *)
Fixpoint for_in_fuel (fuel : nat) (h : heap) (obj : nat) : list string :=
  match fuel with
  | O => []
  | S fuel =>
      match h !! obj with
      | None => []
      | Some o =>
          let mine := (map_to_list (own o)).*1 in
          let inherited :=
            match proto o with
            | Some p => for_in_fuel fuel h p
            | None => []
            end in
          mine ++ List.filter (λ k, bool_decide (k ∉ mine)) inherited
      end
  end.

Definition for_in (h : heap) (obj : nat) : list string :=
  for_in_fuel (S obj) h obj.

(** [obj[key] = v]: writes an own property of [obj], whatever its chain
    holds. *)
Definition set (h : heap) (obj : nat) (key : string) (v : E) : heap :=
  match h !! obj with
  | Some o => <[obj := mkObject (<[key := v]> (own o)) (proto o)]> h
  | None => h
  end.

(** [create(proto)], for [Object.create] and for its polyfill alike: a new
    object without own properties whose prototype is [proto]. *)
Definition create (h : heap) (proto : nat) : heap * nat :=
  (h ++ [mkObject ∅ (Some proto)], length h).

(** [make(funcs, base)].  [exports_base] is the reference held by
    [exports.base]; [base = None] stands for a missing (falsy) argument.
<<
  if (!base) base = exports.base
  let visitor = create(base)
  for (let type in funcs) visitor[type] = funcs[type]
  return visitor
>> *)
Definition make (exports_base : nat) (h : heap) (funcs : nat) (base : option nat)
    : heap * nat :=
  let base := match base with Some b => b | None => exports_base end in
  let '(h, visitor) := create h base in
  let h := foldl (λ h type, set h visitor type (get h funcs type)) h (for_in h funcs) in
  (h, visitor).

(** Heaps built by allocation: every prototype link points to an older
    object. *)
Definition wf_heap (h : heap) : Prop :=
  ∀ a o p, h !! a = Some o → proto o = Some p → (p < a)%nat.

(** Two heaps hold the same objects below the address [n]. *)
Definition agree_below (n : nat) (h h' : heap) : Prop :=
  ∀ a, (a < n)%nat → h' !! a = h !! a.

End Objects.

Arguments object : clear implicits.

Abbreviation heap E := (list (object E)).

End Registry.

(* ===================================================================== *)
(** * Part III: the walker *)
(* ===================================================================== *)

Module Walk.

(** ** Trees *)

(** The values found in the fields of a tree and passed as walker state.
    A node is an object with a [type], numeric [start] and [end] and further
    fields; [addr] is its identity (two [Node]s with the same [addr] are
    the same object).  Scalar payload (names, operators, literal values) is
    never read by the walker and is left out. *)
Inductive value :=
| VUndefined
| VNull
| VBool (b : bool)
| VObj (n : node)
| VArr (elems : list value)
with node :=
| Node (addr : nat) (type : string) (start end_ : Z) (fields : list (string * value)).

Definition node_addr (n : node) : nat := let 'Node a _ _ _ _ := n in a.
Definition node_type (n : node) : string := let 'Node _ t _ _ _ := n in t.
Definition node_start (n : node) : Z := let 'Node _ _ s _ _ := n in s.
Definition node_end (n : node) : Z := let 'Node _ _ _ e _ := n in e.
Definition node_fields (n : node) : list (string * value) :=
  let 'Node _ _ _ _ f := n in f.

(** [node.name]: a missing field reads [undefined]. *)
Fixpoint assoc (name : string) (fields : list (string * value)) : value :=
  match fields with
  | [] => VUndefined
  | (k, v) :: rest => if String.eqb k name then v else assoc name rest
  end.

Definition get (n : node) (name : string) : value :=
  assoc name (node_fields n).

(** JavaScript truthiness, as in [if (node.alternate)] or [st || ancestors]. *)
Definition truthy (v : value) : bool :=
  match v with
  | VUndefined | VNull => false
  | VBool b => b
  | VObj _ | VArr _ => true
  end.

(** [a == b] on objects: identity. *)
Definition same_object (a b : node) : bool :=
  Nat.eqb (node_addr a) (node_addr b).

(** [override || node.type]: an empty string is as falsy as [undefined]. *)
Definition or_type (override : option string) (type : string) : string :=
  match override with
  | Some o => if String.eqb o "" then type else o
  | None => type
  end.

(** ** Node walkers as scripts of continuation calls *)

(** A node walker [(node, st, c) => ...] does nothing but call [c] on
    children, in order, and it ignores what [c] returns; it is embedded as
    the list of calls it makes, which ends early with [Fail] where the
    JavaScript would throw a [TypeError] (iterating a non-array, reading a
    property of [undefined]). *)
Inductive script :=
| Done
| Fail
| Call (child : value) (st : value) (override : option string) (rest : script).

Fixpoint then_ (p q : script) : script :=
  match p with
  | Done => q
  | Fail => Fail
  | Call child st override rest => Call child st override (then_ rest q)
  end.

Infix ">>" := then_ (at level 90, right associativity).

(** [c(child, st, override)]. *)
Definition c (child st : value) (override : option string) : script :=
  Call child st override Done.

(** [for (let x of v) body]: only arrays are iterable in this model. *)
Definition for_of (v : value) (body : value → script) : script :=
  match v with
  | VArr elems => foldr (λ x rest, body x >> rest) Done elems
  | _ => Fail
  end.

(** [if (v) p]. *)
Definition when (v : value) (p : script) : script :=
  if truthy v then p else Done.

(** [v.type] for a field value [v]: a [TypeError] on [undefined] and
    [null], [undefined] on other non-nodes. *)
Definition with_type (v : value) (k : option string → script) : script :=
  match v with
  | VObj n => k (Some (node_type n))
  | VUndefined | VNull => Fail
  | VBool _ | VArr _ => k None
  end.

(** [v.name] for a field value [v], likewise. *)
Definition with_field (v : value) (name : string) (k : value → script) : script :=
  match v with
  | VObj n => k (get n name)
  | VUndefined | VNull => Fail
  | VBool _ | VArr _ => k VUndefined
  end.

(** [types.includes(t)]. *)
Definition includes (types : list string) (t : option string) : bool :=
  match t with
  | Some t => bool_decide (t ∈ types)
  | None => false
  end.

Definition walker := node → value → script.

(** A registry, read as [base[type]]: [None] when the property is missing,
    in which case calling it is a [TypeError]. *)
Definition registry := string → option walker.

(** ** The [base] registry *)

Module Base.

Definition category (s : string) : option string := Some s.
#[local] Coercion category : string >-> option.

Definition skipThrough : walker := λ node st, c (VObj node) st None.
Definition ignore : walker := λ _node _st, Done.

Definition moduleDeclarationTypes : list string :=
  ["ImportDeclaration"; "ExportNamedDeclaration";
   "ExportDefaultDeclaration"; "ExportAllDeclaration"].

Definition Program : walker := λ node st,
  for_of (get node "body") (λ child,
    with_type child (λ child_type,
      if includes moduleDeclarationTypes child_type
      then c child st "ModuleDeclaration"
      else c child st "Statement")).

Definition BlockStatement : walker := λ node st,
  for_of (get node "body") (λ child, c child st "Statement").

Definition declarationTypes : list string :=
  ["VariableDeclaration"; "FunctionDeclaration"; "ClassDeclaration"].

Definition Statement : walker := λ node st,
  if includes declarationTypes (Some (node_type node))
  then c (VObj node) st "Declaration"
  else c (VObj node) st None.

Definition EmptyStatement : walker := ignore.

Definition ExpressionStatement : walker := λ node st,
  c (get node "expression") st "Expression".
Definition ParenthesizedExpression : walker := ExpressionStatement.

Definition IfStatement : walker := λ node st,
  c (get node "test") st "Expression" >>
  c (get node "consequent") st "Statement" >>
  when (get node "alternate") (c (get node "alternate") st "Statement").

Definition LabeledStatement : walker := λ node st,
  c (get node "body") st "Statement".

Definition BreakStatement : walker := ignore.
Definition ContinueStatement : walker := ignore.

Definition WithStatement : walker := λ node st,
  c (get node "object") st "Expression" >>
  c (get node "body") st "Statement".

Definition SwitchStatement : walker := λ node st,
  c (get node "discriminant") st "Expression" >>
  for_of (get node "cases") (λ cs, c cs st "SwitchCase").

Definition SwitchCase : walker := λ node st,
  when (get node "test") (c (get node "test") st "Expression") >>
  for_of (get node "consequent") (λ cons, c cons st "Statement").

Definition ReturnStatement : walker := λ node st,
  when (get node "argument") (c (get node "argument") st "Expression").
Definition YieldExpression : walker := ReturnStatement.
Definition AwaitExpression : walker := ReturnStatement.

Definition ThrowStatement : walker := λ node st,
  c (get node "argument") st "Expression".
Definition SpreadElement : walker := ThrowStatement.

Definition TryStatement : walker := λ node st,
  c (get node "block") st "Statement" >>
  when (get node "handler") (c (get node "handler") st None) >>
  when (get node "finalizer") (c (get node "finalizer") st "Statement").

Definition CatchClause : walker := λ node st,
  c (get node "param") st "Pattern" >>
  c (get node "body") st "ScopeBody".

Definition WhileStatement : walker := λ node st,
  c (get node "test") st "Expression" >>
  c (get node "body") st "Statement".
Definition DoWhileStatement : walker := WhileStatement.

Definition ForStatement : walker := λ node st,
  when (get node "init") (c (get node "init") st "ForInit") >>
  when (get node "test") (c (get node "test") st "Expression") >>
  when (get node "update") (c (get node "update") st "Expression") >>
  c (get node "body") st "Statement".

Definition ForInStatement : walker := λ node st,
  c (get node "left") st "ForInit" >>
  c (get node "right") st "Expression" >>
  c (get node "body") st "Statement".
Definition ForOfStatement : walker := ForInStatement.

Definition ForInit : walker := λ node st,
  if String.eqb (node_type node) "VariableDeclaration"
  then c (VObj node) st None
  else c (VObj node) st "Expression".

Definition DebuggerStatement : walker := ignore.

Definition Declaration : walker := skipThrough.

Definition FunctionDeclaration : walker := λ node st,
  c (VObj node) st "Function".

Definition VariableDeclaration : walker := λ node st,
  for_of (get node "declarations") (λ decl, c decl st None).

Definition VariableDeclarator : walker := λ node st,
  c (get node "id") st "Pattern" >>
  when (get node "init") (c (get node "init") st "Expression").

Definition Function : walker := λ node st,
  when (get node "id") (c (get node "id") st "Pattern") >>
  for_of (get node "params") (λ param, c param st "Pattern") >>
  c (get node "body") st
    (if truthy (get node "expression") then "ScopeExpression" else "ScopeBody").

Definition ScopeBody : walker := λ node st, c (VObj node) st "Statement".
Definition ScopeExpression : walker := λ node st, c (VObj node) st "Expression".

Definition Pattern : walker := λ node st,
  if String.eqb (node_type node) "Identifier"
     || String.eqb (node_type node) "MemberExpression"
  then c (VObj node) st "Expression"
  else c (VObj node) st None.

Definition RestElement : walker := λ node st,
  c (get node "argument") st "Pattern".

Definition ArrayPattern : walker := λ node st,
  for_of (get node "elements") (λ elt, when elt (c elt st "Pattern")).

Definition ObjectPattern : walker := λ node st,
  for_of (get node "properties") (λ prop,
    with_field prop "value" (λ value, c value st "Pattern")).

Definition Expression : walker := skipThrough.

Definition ThisExpression : walker := ignore.
Definition Super : walker := ignore.
Definition MetaProperty : walker := ignore.

Definition ArrayExpression : walker := λ node st,
  for_of (get node "elements") (λ elt, when elt (c elt st "Expression")).

Definition ObjectExpression : walker := λ node st,
  for_of (get node "properties") (λ prop, c prop st None).

Definition FunctionExpression : walker := FunctionDeclaration.
Definition ArrowFunctionExpression : walker := FunctionDeclaration.

Definition TemplateLiteral : walker := λ node st,
  for_of (get node "quasis") (λ quasi, c quasi st None) >>
  for_of (get node "expressions") (λ expr, c expr st "Expression").

Definition TemplateElement : walker := ignore.

Definition SequenceExpression : walker := λ node st,
  for_of (get node "expressions") (λ expr, c expr st "Expression").

Definition UnaryExpression : walker := λ node st,
  c (get node "argument") st "Expression".
Definition UpdateExpression : walker := UnaryExpression.

Definition BinaryExpression : walker := λ node st,
  c (get node "left") st "Expression" >>
  c (get node "right") st "Expression".
Definition LogicalExpression : walker := BinaryExpression.

Definition AssignmentExpression : walker := λ node st,
  c (get node "left") st "Pattern" >>
  c (get node "right") st "Expression".
Definition AssignmentPattern : walker := AssignmentExpression.

Definition ConditionalExpression : walker := λ node st,
  c (get node "test") st "Expression" >>
  c (get node "consequent") st "Expression" >>
  c (get node "alternate") st "Expression".

Definition NewExpression : walker := λ node st,
  c (get node "callee") st "Expression" >>
  when (get node "arguments")
    (for_of (get node "arguments") (λ arg, c arg st "Expression")).
Definition CallExpression : walker := NewExpression.

Definition MemberExpression : walker := λ node st,
  c (get node "object") st "Expression" >>
  when (get node "computed") (c (get node "property") st "Expression").

Definition ModuleDeclaration : walker := skipThrough.

Definition ExportDefaultDeclaration : walker := λ node st,
  with_type (get node "declaration") (λ declaration_type,
    if includes declarationTypes declaration_type
    then c (get node "declaration") st "Declaration"
    else c (get node "declaration") st "Expression").

Definition ExportNamedDeclaration : walker := λ node st,
  when (get node "declaration") (c (get node "declaration") st "Declaration") >>
  for_of (get node "specifiers") (λ spec, c spec st "ModuleSpecifier") >>
  when (get node "source") (c (get node "source") st "Expression").

Definition ExportAllDeclaration : walker := λ node st,
  c (get node "source") st "Expression".

Definition ImportDeclaration : walker := λ node st,
  for_of (get node "specifiers") (λ spec, c spec st "ModuleSpecifier") >>
  c (get node "source") st "Expression".

Definition ModuleSpecifier : walker := skipThrough.

Definition ImportSpecifier : walker := ignore.
Definition ImportDefaultSpecifier : walker := ignore.
Definition ImportNamespaceSpecifier : walker := ignore.
Definition ExportSpecifier : walker := ignore.
Definition Identifier : walker := ignore.
Definition Literal : walker := ignore.

Definition TaggedTemplateExpression : walker := λ node st,
  c (get node "tag") st "Expression" >>
  c (get node "quasi") st None.

Definition ClassDeclaration : walker := λ node st, c (VObj node) st "Class".
Definition ClassExpression : walker := ClassDeclaration.

Definition Class : walker := λ node st,
  when (get node "id") (c (get node "id") st "Pattern") >>
  when (get node "superClass") (c (get node "superClass") st "Expression") >>
  c (get node "body") st "ClassBody".

Definition ClassBody : walker := λ node st,
  for_of (get node "body") (λ item, c item st None).

Definition MethodDefinition : walker := λ node st,
  when (get node "computed") (c (get node "key") st "Expression") >>
  c (get node "value") st "Expression".
Definition Property : walker := MethodDefinition.

(** The properties of the exported [base] object. *)
Definition table : list (string * walker) :=
  [ ("Program", Program); ("BlockStatement", BlockStatement);
    ("Statement", Statement); ("EmptyStatement", EmptyStatement);
    ("ExpressionStatement", ExpressionStatement);
    ("ParenthesizedExpression", ParenthesizedExpression);
    ("IfStatement", IfStatement); ("LabeledStatement", LabeledStatement);
    ("BreakStatement", BreakStatement); ("ContinueStatement", ContinueStatement);
    ("WithStatement", WithStatement); ("SwitchStatement", SwitchStatement);
    ("SwitchCase", SwitchCase); ("ReturnStatement", ReturnStatement);
    ("YieldExpression", YieldExpression); ("AwaitExpression", AwaitExpression);
    ("ThrowStatement", ThrowStatement); ("SpreadElement", SpreadElement);
    ("TryStatement", TryStatement); ("CatchClause", CatchClause);
    ("WhileStatement", WhileStatement); ("DoWhileStatement", DoWhileStatement);
    ("ForStatement", ForStatement); ("ForInStatement", ForInStatement);
    ("ForOfStatement", ForOfStatement); ("ForInit", ForInit);
    ("DebuggerStatement", DebuggerStatement); ("Declaration", Declaration);
    ("FunctionDeclaration", FunctionDeclaration);
    ("VariableDeclaration", VariableDeclaration);
    ("VariableDeclarator", VariableDeclarator); ("Function", Function);
    ("ScopeBody", ScopeBody); ("ScopeExpression", ScopeExpression);
    ("Pattern", Pattern); ("RestElement", RestElement);
    ("ArrayPattern", ArrayPattern); ("ObjectPattern", ObjectPattern);
    ("Expression", Expression); ("ThisExpression", ThisExpression);
    ("Super", Super); ("MetaProperty", MetaProperty);
    ("ArrayExpression", ArrayExpression); ("ObjectExpression", ObjectExpression);
    ("FunctionExpression", FunctionExpression);
    ("ArrowFunctionExpression", ArrowFunctionExpression);
    ("TemplateLiteral", TemplateLiteral); ("TemplateElement", TemplateElement);
    ("SequenceExpression", SequenceExpression);
    ("UnaryExpression", UnaryExpression); ("UpdateExpression", UpdateExpression);
    ("BinaryExpression", BinaryExpression); ("LogicalExpression", LogicalExpression);
    ("AssignmentExpression", AssignmentExpression);
    ("AssignmentPattern", AssignmentPattern);
    ("ConditionalExpression", ConditionalExpression);
    ("NewExpression", NewExpression); ("CallExpression", CallExpression);
    ("MemberExpression", MemberExpression);
    ("ModuleDeclaration", ModuleDeclaration);
    ("ExportDefaultDeclaration", ExportDefaultDeclaration);
    ("ExportNamedDeclaration", ExportNamedDeclaration);
    ("ExportAllDeclaration", ExportAllDeclaration);
    ("ImportDeclaration", ImportDeclaration);
    ("ModuleSpecifier", ModuleSpecifier); ("ImportSpecifier", ImportSpecifier);
    ("ImportDefaultSpecifier", ImportDefaultSpecifier);
    ("ImportNamespaceSpecifier", ImportNamespaceSpecifier);
    ("ExportSpecifier", ExportSpecifier); ("Identifier", Identifier);
    ("Literal", Literal);
    ("TaggedTemplateExpression", TaggedTemplateExpression);
    ("ClassDeclaration", ClassDeclaration); ("ClassExpression", ClassExpression);
    ("Class", Class); ("ClassBody", ClassBody);
    ("MethodDefinition", MethodDefinition); ("Property", Property) ].

End Base.

(** [base[type]]. *)
Definition base : registry := λ type,
  snd <$> List.find (λ entry, String.eqb (fst entry) type) Base.table.

(** The registry the entry points fall back on: [exports.base]. *)
Definition exports_base : registry := base.

(** The registry an entry point walks through: [if (!base) base =
    exports.base]. *)
Definition or_base (base : option registry) : registry :=
  match base with
  | Some b => b
  | None => exports_base
  end.

(** ** Running a walker *)

(** What can be thrown: the [Found] sentinel of the searches, or a
    [TypeError] of the engine. *)
Inductive exn :=
| Found (n : node) (state : value)
| TypeError.

(** The run of a piece of code on a state [S]: it completes, it throws, or
    the recursion is deeper than the [fuel] at hand. *)
Inductive result (S : Type) :=
| Normal (s : S)
| Abrupt (e : exn) (s : S)
| OutOfFuel.
Arguments Normal {S} s.
Arguments Abrupt {S} e s.
Arguments OutOfFuel {S}.

(** Runs the calls of a script through the continuation [k]; a throw ends
    the run. *)
Fixpoint run {S : Type}
    (k : value → value → option string → S → result S)
    (p : script) (s : S) : result S :=
  match p with
  | Done => Normal s
  | Fail => Abrupt TypeError s
  | Call child st override rest =>
      match k child st override s with
      | Normal s => run k rest s
      | r => r
      end
  end.

(** What a top-level call gives back. *)
Inductive completion (A : Type) :=
| Returns (a : A)
| Throws (e : exn)
| Exhausted.
Arguments Returns {A} a.
Arguments Throws {A} e.
Arguments Exhausted {A}.

(** ** [simple] *)

(** A call [found(node, st)] of the visitor registered under [type]. *)
Record visit := Visit {
  visit_type : string;
  visit_node : node;
  visit_state : value
}.

(** The inner function [c] of [simple]; its state is the list of visitor
    calls made so far.  [visitors type] tells whether [visitors[type]] is
    set.  A continuation call on a value that is not a node object ends in
    a [TypeError]. *)
Fixpoint simple_c (visitors : string → bool) (base : registry) (fuel : nat)
    (node st : value) (override : option string) (calls : list visit)
    : result (list visit) :=
  match fuel with
  | O => OutOfFuel
  | S fuel =>
      match node with
      | VObj node =>
          let type := or_type override (node_type node) in
          let found := visitors type in
          match base type with
          | None => Abrupt TypeError calls
          | Some walk =>
              match run (simple_c visitors base fuel) (walk node st) calls with
              | Normal calls =>
                  Normal (if found then calls ++ [Visit type node st] else calls)
              | r => r
              end
          end
      | _ => Abrupt TypeError calls
      end
  end.

Definition simple (fuel : nat) (node : node) (visitors : string → bool)
    (base : option registry) (state : value) (override : option string)
    : result (list visit) :=
  let base := or_base base in
  simple_c visitors base fuel (VObj node) state override [].

(** ** [ancestor] *)

(** A call [found(node, st || ancestors, ancestors)]: the second argument
    is the state when it is truthy and the array itself otherwise. *)
Inductive state_arg :=
| TheState (st : value)
| TheAncestors (ancestors : list node).

Record ancestor_visit := AncestorVisit {
  avisit_type : string;
  avisit_node : node;
  avisit_state : state_arg;
  avisit_ancestors : list node
}.

(** [ancestors[ancestors.length - 1]]. *)
Definition top (ancestors : list node) : option node := last ancestors.

(** [node != top]: [undefined] differs from every node. *)
Definition differs (n : node) (top : option node) : bool :=
  match top with
  | Some a => negb (same_object n a)
  | None => true
  end.

(** The state of an ancestor walk: the [ancestors] array and the list of
    visitor calls made so far. *)
Definition ancestor_state : Type := list node * list ancestor_visit.

(** The inner function [c] of [ancestor]. *)
Fixpoint ancestor_c (visitors : string → bool) (base : registry) (fuel : nat)
    (node st : value) (override : option string) (s : ancestor_state)
    : result ancestor_state :=
  match fuel with
  | O => OutOfFuel
  | S fuel =>
      match node with
      | VObj node =>
          let '(ancestors, calls) := s in
          let type := or_type override (node_type node) in
          let found := visitors type in
          let isNew := differs node (top ancestors) in
          let ancestors := if isNew then ancestors ++ [node] else ancestors in
          match base type with
          | None => Abrupt TypeError (ancestors, calls)
          | Some walk =>
              match run (ancestor_c visitors base fuel) (walk node st)
                        (ancestors, calls) with
              | Normal (ancestors, calls) =>
                  let calls :=
                    if found
                    then calls ++ [AncestorVisit type node
                                     (if truthy st then TheState st
                                      else TheAncestors ancestors)
                                     ancestors]
                    else calls in
                  let ancestors :=
                    if isNew then removelast ancestors else ancestors in
                  Normal (ancestors, calls)
              | r => r
              end
          end
      | _ => Abrupt TypeError s
      end
  end.

Definition ancestor (fuel : nat) (node : node) (visitors : string → bool)
    (base : option registry) (state : value)
    : result ancestor_state :=
  let base := or_base base in
  let ancestors := [] in
  ancestor_c visitors base fuel (VObj node) state None (ancestors, []).

(** ** The searches *)

(** The [test] argument of the searches. *)
Inductive type_test :=
| TestUndefined
| TestNull
| TestString (s : string)
| TestFunction (f : string → node → bool).

Definition makeTest (test : type_test) : string → node → bool :=
  match test with
  | TestString test => λ type _, String.eqb type test
  | TestUndefined | TestNull => λ _ _, true
  | TestFunction f => f
  end.

(** An instance of [class Found]. *)
Record found := mkFound { found_node : node; found_state : value }.

(** A call [c(node, st, override)] of the inner function of a walk, on a
    node object. *)
Record call := Call_ {
  call_node : node;
  call_state : value;
  call_override : option string
}.

(** The type the call is dispatched under: [override || node.type]. *)
Definition call_type (d : call) : string :=
  or_type (call_override d) (node_type (call_node d)).

(** The searches carry, as a ghost state, the list of the calls on which
    they descend ([base[type](node, st, c)]): it is not part of the source
    and nothing they compute depends on it. *)
Abbreviation descents := (list call).

(** [start == null || node.start <= start] and its like; [None] is a
    [null] or [undefined] bound. *)
Definition null_or (bound : option Z) (p : Z → bool) : bool :=
  match bound with
  | None => true
  | Some b => p b
  end.

Fixpoint findNodeAt_c (start end_ : option Z) (test : string → node → bool)
    (base : registry) (fuel : nat)
    (node st : value) (override : option string) (log : descents)
    : result descents :=
  match fuel with
  | O => OutOfFuel
  | S fuel =>
      match node with
      | VObj node =>
          let type := or_type override (node_type node) in
          let descended :=
            if null_or start (λ start, node_start node <=? start)
               && null_or end_ (λ end_, node_end node >=? end_)
            then
              match base type with
              | None => Abrupt TypeError log
              | Some walk =>
                  run (findNodeAt_c start end_ test base fuel) (walk node st)
                      (log ++ [Call_ node st override])
              end
            else Normal log in
          match descended with
          | Normal log =>
              if null_or start (λ start, node_start node =? start)
                 && null_or end_ (λ end_, node_end node =? end_)
                 && test type node
              then Abrupt (Found node st) log
              else Normal log
          | r => r
          end
      | _ => Abrupt TypeError log
      end
  end.

(** The [try { ... } catch (e) { if (e instanceof Found) return e; throw e }]
    around the inner function of a search. *)
Definition catch_Found {S} (r : result S) : completion (option found) :=
  match r with
  | Normal _ => Returns None
  | Abrupt (Found node state) _ => Returns (Some (mkFound node state))
  | Abrupt e _ => Throws e
  | OutOfFuel => Exhausted
  end.


Definition findNodeAt_run (fuel : nat) (node : node) (start end_ : option Z)
    (test : type_test) (base : option registry) (state : value)
    : result descents :=
  let test := makeTest test in
  let base := or_base base in
  findNodeAt_c start end_ test base fuel (VObj node) state None [].

Definition findNodeAt (fuel : nat) (node : node) (start end_ : option Z)
    (test : type_test) (base : option registry) (state : value)
    : completion (option found) :=
  catch_Found (findNodeAt_run fuel node start end_ test base state).

Fixpoint findNodeAround_c (pos : Z) (test : string → node → bool)
    (base : registry) (fuel : nat)
    (node st : value) (override : option string) (log : descents)
    : result descents :=
  match fuel with
  | O => OutOfFuel
  | S fuel =>
      match node with
      | VObj node =>
          let type := or_type override (node_type node) in
          if (node_start node >? pos) || (node_end node <? pos) then Normal log
          else
            match base type with
            | None => Abrupt TypeError log
            | Some walk =>
                match run (findNodeAround_c pos test base fuel) (walk node st)
                          (log ++ [Call_ node st override]) with
                | Normal log =>
                    if test type node then Abrupt (Found node st) log
                    else Normal log
                | r => r
                end
            end
      | _ => Abrupt TypeError log
      end
  end.

Definition findNodeAround_run (fuel : nat) (node : node) (pos : Z)
    (test : type_test) (base : option registry) (state : value)
    : result descents :=
  let test := makeTest test in
  let base := or_base base in
  findNodeAround_c pos test base fuel (VObj node) state None [].

Definition findNodeAround (fuel : nat) (node : node) (pos : Z)
    (test : type_test) (base : option registry) (state : value)
    : completion (option found) :=
  catch_Found (findNodeAround_run fuel node pos test base state).




(** [!max || max.node.end < node.end]. *)
Definition improves (max : option found) (n : node) : bool :=
  match max with
  | None => true
  | Some m => node_end (found_node m) <? node_end n
  end.

(** The inner function of [findNodeBefore]; its state is the variable
    [max] (and the ghost log). *)
Fixpoint findNodeBefore_c (pos : Z) (test : string → node → bool)
    (base : registry) (fuel : nat)
    (node st : value) (override : option string)
    (s : option found * descents)
    : result (option found * descents) :=
  match fuel with
  | O => OutOfFuel
  | S fuel =>
      match node with
      | VObj node =>
          let '(max, log) := s in
          if node_start node >? pos then Normal (max, log)
          else
            let type := or_type override (node_type node) in
            let max :=
              if (node_end node <=? pos) && improves max node && test type node
              then Some (mkFound node st)
              else max in
            match base type with
            | None => Abrupt TypeError (max, log)
            | Some walk =>
                run (findNodeBefore_c pos test base fuel) (walk node st)
                    (max, log ++ [Call_ node st override])
            end
      | _ => Abrupt TypeError s
      end
  end.

Definition findNodeBefore_run (fuel : nat) (node : node) (pos : Z)
    (test : type_test) (base : option registry) (state : value)
    : result (option found * descents) :=
  let test := makeTest test in
  let base := or_base base in
  let max := None in
  findNodeBefore_c pos test base fuel (VObj node) state None (max, []).

Definition findNodeBefore (fuel : nat) (node : node) (pos : Z)
    (test : type_test) (base : option registry) (state : value)
    : completion (option found) :=
  match findNodeBefore_run fuel node pos test base state with
  | Normal (max, _) => Returns max
  | Abrupt e _ => Throws e
  | OutOfFuel => Exhausted
  end.

(** ** The tree of calls of a walk *)

(** The calls [c(node, st, override)] that the plain descent through a
    registry makes, as a tree: a call and, below it, the calls its node
    walker makes in order. *)
Inductive calltree :=
| CallNode (d : call) (kids : list calltree).

Definition root_call (t : calltree) : call := let 'CallNode d _ := t in d.
Definition kids (t : calltree) : list calltree := let 'CallNode _ ks := t in ks.

Fixpoint calls_of_script (k : value → value → option string → option calltree)
    (p : script) : option (list calltree) :=
  match p with
  | Done => Some []
  | Fail => None
  | Call child st override rest =>
      match k child st override with
      | Some t =>
          match calls_of_script k rest with
          | Some ts => Some (t :: ts)
          | None => None
          end
      | None => None
      end
  end.

(** The tree of the call [c(node, st, override)], when the descent neither
    throws nor goes deeper than [fuel]. *)
Fixpoint calltree_of (base : registry) (fuel : nat)
    (node st : value) (override : option string) : option calltree :=
  match fuel with
  | O => None
  | S fuel =>
      match node with
      | VObj node =>
          match base (or_type override (node_type node)) with
          | None => None
          | Some walk =>
              match calls_of_script (calltree_of base fuel) (walk node st) with
              | Some ks => Some (CallNode (Call_ node st override) ks)
              | None => None
              end
          end
      | _ => None
      end
  end.

(** A call, then the calls below it. *)
Fixpoint preorder (t : calltree) : list call :=
  match t with
  | CallNode d ks => d :: flat_map preorder ks
  end.

(** The calls below a call, then the call. *)
Fixpoint postorder (t : calltree) : list call :=
  match t with
  | CallNode d ks => flat_map postorder ks ++ [d]
  end.

(** The subtree reached by taking, from the root, the kids of the given
    indices. *)
Fixpoint at_path (t : calltree) (path : list nat) : option calltree :=
  match path with
  | [] => Some t
  | i :: path =>
      match kids t !! i with
      | Some k => at_path k path
      | None => None
      end
  end.


(** The interval of [inner] lies within the interval of [outer]. *)
Definition within (inner outer : node) : bool :=
  (node_start outer <=? node_start inner) && (node_end inner <=? node_end outer).

(** The invariant of the data model: the interval of every node called
    from a node walker lies within the interval of the walked node. *)
Fixpoint nested (t : calltree) : bool :=
  match t with
  | CallNode d ks =>
      forallb (λ k, within (call_node (root_call k)) (call_node d)) ks
      && forallb nested ks
  end.

(** [start <= end] for every node called. *)
Definition spanned (t : calltree) : bool :=
  forallb (λ d, node_start (call_node d) <=? node_end (call_node d)) (preorder t).

(** What a search returns for a call. *)
Definition found_of (d : call) : found :=
  mkFound (call_node d) (call_state d).

(** What a visitor of [simple] is called with. *)
Definition visit_of (d : call) : visit :=
  Visit (call_type d) (call_node d) (call_state d).

(** The visitor calls of [simple] for a list of calls: one for each call
    whose type has a visitor. *)
Definition visits (visitors : string → bool) (l : list call) : list visit :=
  visit_of <$> List.filter (λ d, visitors (call_type d)) l.

Arguments visits : simpl never.

(** ** What the searches look at *)

(** [test(type, node)] on a call. *)
Definition passes (test : string → node → bool) (d : call) : bool :=
  test (call_type d) (call_node d).



Definition exact (start end_ : option Z) (n : node) : bool :=
  null_or start (λ start, node_start n =? start)
  && null_or end_ (λ end_, node_end n =? end_).







(** [findNodeBefore]: the calls on nodes that do not start after [pos],
    reached through such nodes only, each before the calls below it. *)
Fixpoint before_scan (pos : Z) (t : calltree) : list call :=
  match t with
  | CallNode d ks =>
      if node_start (call_node d) >? pos then []
      else d :: flat_map (before_scan pos) ks
  end.

Definition before_match (pos : Z) (test : string → node → bool) (d : call)
    : bool :=
  (node_end (call_node d) <=? pos) && passes test d.

(** The value of [max] after the calls of [l], in order. *)
Definition best (pos : Z) (test : string → node → bool)
    (max : option found) (l : list call) : option found :=
  foldl (λ max d,
           if (node_end (call_node d) <=? pos) && improves max (call_node d)
              && passes test d
           then Some (found_of d) else max)
        max l.


(** ** What [ancestor] passes to the visitors *)

(** The visitor calls of an ancestor walk over the tree [t], entered with
    the array [ancestors]. *)
Fixpoint ancestor_visits (visitors : string → bool) (ancestors : list node)
    (t : calltree) : list ancestor_visit :=
  match t with
  | CallNode d ks =>
      let ancestors :=
        if differs (call_node d) (top ancestors)
        then ancestors ++ [call_node d] else ancestors in
      flat_map (ancestor_visits visitors ancestors) ks ++
      (if visitors (call_type d)
       then [AncestorVisit (call_type d) (call_node d)
               (if truthy (call_state d) then TheState (call_state d)
                else TheAncestors ancestors)
               ancestors]
       else [])
  end.

(** The calls of a tree, each after the calls below it, with the number of
    nodes on the chain of calls that leads to it: a call on the node of the
    call above it stays on the same level. [parent] is the node of the call
    above and [depth] its level. *)
Fixpoint levels (parent : option node) (depth : nat) (t : calltree)
    : list (call * nat) :=
  match t with
  | CallNode d ks =>
      let new := differs (call_node d) parent in
      let parent := if new then Some (call_node d) else parent in
      let depth := if new then S depth else depth in
      flat_map (levels parent depth) ks ++ [(d, depth)]
  end.

(** ** Trees as values *)

(** The node objects inside a value, outermost first. *)
Fixpoint subnodes (v : value) : list node :=
  match v with
  | VObj (Node a t s e fs) =>
      Node a t s e fs ::
      (fix fields (fs : list (string * value)) : list node :=
         match fs with
         | [] => []
         | (_, x) :: fs => subnodes x ++ fields fs
         end) fs
  | VArr l =>
      (fix elems (l : list value) : list node :=
         match l with
         | [] => []
         | x :: l => subnodes x ++ elems l
         end) l
  | _ => []
  end.

(** The depth of the node object of address [addr] inside [v], the
    outermost node being at depth 1: the number of node objects from it
    up to the outermost one. *)
Fixpoint raw_depth (addr : nat) (v : value) : option nat :=
  match v with
  | VObj (Node a _ _ _ fs) =>
      if Nat.eqb a addr then Some 1%nat
      else S <$>
        (fix fields (fs : list (string * value)) : option nat :=
           match fs with
           | [] => None
           | (_, x) :: fs =>
               match raw_depth addr x with
               | Some k => Some k
               | None => fields fs
               end
           end) fs
  | VArr l =>
      (fix elems (l : list value) : option nat :=
         match l with
         | [] => None
         | x :: l =>
             match raw_depth addr x with
             | Some k => Some k
             | None => elems l
             end
         end) l
  | _ => None
  end.

(** ** Registries that follow the shape of the tree *)

(** The continuation calls of a script. *)
Fixpoint script_calls (p : script) : list (value * value * option string) :=
  match p with
  | Done | Fail => []
  | Call child st override rest => (child, st, override) :: script_calls rest
  end.

(** The node objects inside the values a script calls the continuation
    on. *)
Definition reach (p : script) : list node :=
  flat_map (λ x, subnodes x.1.1) (script_calls p).

(** The node objects strictly inside a node. *)
Definition inner_nodes (n : node) : list node :=
  flat_map (λ f, subnodes f.2) (node_fields n).

(** A node walker is plain when it hands its state on unchanged and
    either calls the continuation once, on its own node (as the category
    walkers do), or calls it on values from separate places inside its node.
    [l1 ⊆+ l2] says that [l1] is, up to the order, a part of [l2]. *)
Definition plain_walker (walk : walker) : Prop :=
  ∀ n st,
    Forall (λ x, x.1.2 = st) (script_calls (walk n st)) ∧
    ((∃ override, script_calls (walk n st) = [(VObj n, st, override)]) ∨
     reach (walk n st) ⊆+ inner_nodes n).

Definition plain (base : registry) : Prop :=
  ∀ type walk, base type = Some walk → plain_walker walk.

(** The number of calls of a tree. *)
Fixpoint size (t : calltree) : nat :=
  match t with
  | CallNode _ ks => S (list_sum (map size ks))
  end.

(** A call as a pairing of a node, by identity, and a type. *)
Definition pairing (d : call) : nat * string :=
  (node_addr (call_node d), call_type d).

(** The number of visitor calls of [simple] made on the node of address
    [addr] under the type [type]. *)
Definition count_visits (addr : nat) (type : string) (calls : list visit) : nat :=
  length (List.filter
            (λ v, Nat.eqb (node_addr (visit_node v)) addr
                  && String.eqb (visit_type v) type)
            calls).

(** The script [p] hands on the state [st] and reaches, through its calls,
    separate parts of the list [l]. *)
Definition tame (st : value) (p : script) (l : list node) : Prop :=
  Forall (λ x, x.1.2 = st) (script_calls p) ∧ reach p ⊆+ l.

(** The nodes inside the fields of the names [names]. *)
Definition gets (fs : list (string * value)) (names : list string) : list node :=
  flat_map (λ name, subnodes (assoc name fs)) names.

(** What holds of the [ancestors] array when the inner function is called
    on [n]: its nodes are distinct nodes of [root], and each of them is [n]
    itself, on top, or has [n] inside. *)
Definition chain (root : value) (stack : list node) (n : node) : Prop :=
  NoDup (node_addr <$> stack) ∧
  (∀ m, m ∈ stack → m ∈ subnodes root) ∧
  n ∈ subnodes root ∧
  ∀ m, m ∈ stack → (m = n ∧ top stack = Some m) ∨ n ∈ inner_nodes m.

(** ** What the inner functions of the searches do *)







(** [f] is the first call of [l], at index [i], among those of the largest
    end that end at or before [pos] and pass the test. *)
Definition first_widest (pos : Z) (test : string → node → bool)
    (l : list call) (i : nat) (d : call) : Prop :=
  l !! i = Some d ∧
  before_match pos test d = true ∧
  (∀ j d', l !! j = Some d' → before_match pos test d' = true →
           node_end (call_node d') ≤ node_end (call_node d)) ∧
  (∀ j d', (j < i)%nat → l !! j = Some d' → before_match pos test d' = true →
           node_end (call_node d') < node_end (call_node d)).

End Walk.

(* ===================================================================== *)
(** * Sample inputs *)
(* ===================================================================== *)

Module LifecycleSamples.
Import NodeLifecycle.

(** A parser with [locations] and [ranges] on, at offset 4, and the same
    parser a token later. *)
Definition located_parser : Parser :=
  {| options := {| locations := true; ranges := true; directSourceFile := None |};
     start := 4; startLoc := mkPosition 1 4;
     lastTokEnd := 2; lastTokEndLoc := mkPosition 1 2 |}.
Definition located_parser_later : Parser :=
  {| options := {| locations := true; ranges := true; directSourceFile := None |};
     start := 9; startLoc := mkPosition 1 9;
     lastTokEnd := 7; lastTokEndLoc := mkPosition 1 7 |}.


Definition strict : Process :=
  {| throwDeprecation := true; traceDeprecation := false |}.

End LifecycleSamples.

Module RegistrySamples.
Import Registry.

(** A store with three objects without prototype whose properties are
    numbers: a base registry and two sets of overrides. *)
Definition sample_heap : heap nat :=
  [ mkObject {[ "Program" := 1%nat; "Statement" := 2%nat ]} None;
    mkObject {[ "Statement" := 20%nat ]} None;
    mkObject {[ "Literal" := 300%nat ]} None ].

End RegistrySamples.

Module WalkSamples.
Import Walk.

Definition identifier (addr : nat) (start end_ : Z) : node :=
  Node addr "Identifier" start end_ [].

Definition expression_statement (addr : nat) (start end_ : Z) (e : node) : node :=
  Node addr "ExpressionStatement" start end_ [("expression", VObj e)].

(** [f(g(x))], with [f(...)] over [0,10] and [g(x)] over [2,6]. *)
Definition inner_call : node :=
  Node 4 "CallExpression" 2 6
    [("callee", VObj (identifier 5 2 3));
     ("arguments", VArr [VObj (identifier 6 4 5)])].
Definition outer_call : node :=
  Node 2 "CallExpression" 0 10
    [("callee", VObj (identifier 3 0 1));
     ("arguments", VArr [VObj inner_call])].
Definition call_program : node :=
  Node 0 "Program" 0 10
    [("body", VArr [VObj (expression_statement 1 0 10 outer_call)])].

(** Three statements that end at 5, 12 and 20. *)
Definition first_statement : node :=
  expression_statement 1 0 5 (identifier 2 0 5).
Definition second_statement : node :=
  expression_statement 3 6 12 (identifier 4 6 11).
Definition third_statement : node :=
  expression_statement 5 16 20 (identifier 6 16 19).
Definition three_statements : node :=
  Node 0 "Program" 0 20
    [("body", VArr [VObj first_statement; VObj second_statement;
                    VObj third_statement])].

(** [var {a: b} = c]. *)
Definition pattern_target : node := identifier 6 8 9.
Definition pattern_property : node :=
  Node 4 "Property" 5 9
    [("key", VObj (identifier 5 5 6)); ("value", VObj pattern_target);
     ("computed", VBool false)].
Definition pattern_program : node :=
  Node 0 "Program" 0 15
    [("body", VArr [VObj
       (Node 1 "VariableDeclaration" 0 15
          [("declarations", VArr [VObj
             (Node 2 "VariableDeclarator" 4 14
                [("id", VObj (Node 3 "ObjectPattern" 4 10
                                [("properties", VArr [VObj pattern_property])]));
                 ("init", VObj (identifier 7 13 14))])])])])].

(** The trees of calls of the three programs through [base]. *)
Definition no_calls : calltree :=
  CallNode (Call_ call_program VUndefined None) [].

Definition call_program_calls : calltree :=
  Eval vm_compute in
    default no_calls (calltree_of base 20 (VObj call_program) VUndefined None).
Definition three_statements_calls : calltree :=
  Eval vm_compute in
    default no_calls (calltree_of base 20 (VObj three_statements) VUndefined None).
Definition pattern_program_calls : calltree :=
  Eval vm_compute in
    default no_calls (calltree_of base 20 (VObj pattern_program) VUndefined None).

(** Visitors for identifiers only. *)
Definition identifiers (type : string) : bool := String.eqb type "Identifier".

End WalkSamples.

(* ===================================================================== *)
(** * Properties *)
(* ===================================================================== *)

(** ** The node lifecycle functions *)

Section NodeLifecycleProperties.
Import NodeLifecycle LifecycleSamples.

(** C8. A node opened by [startNode] and closed by [finishNode] under
    [locations] and [ranges] has [range = [start, end]], and its [loc]
    holds the parser's start position at opening and its last token end
    position at closing: both ends are set. *)
Theorem startNode_finishNode_range_loc (this later : Parser) (type : string) :
  locations (options this) = true →
  ranges (options this) = true →
  options later = options this →
  ∃ node loc,
    finishNode later (startNode this) type = Returns node [] ∧
    node_type node = Some type ∧
    node_start node = JNum (start this) ∧
    node_end node = JNum (lastTokEnd later) ∧
    node_range node = Some [node_start node; node_end node] ∧
    node_loc node = Some loc ∧
    sl_start loc = JPosition (startLoc this) ∧
    sl_end loc = JPosition (lastTokEndLoc later) ∧
    sl_start loc ≠ JUndefined ∧ sl_end loc ≠ JUndefined.
Proof.
  intros Hloc Hrange Hopt.
  unfold finishNode, startNode. rewrite Hopt, Hloc, Hrange.
  destruct (directSourceFile (options this)); cbn;
    (eexists _, _; repeat split; try reflexivity; discriminate).
Qed.

Lemma startNode_finishNode_range_loc_witness :
  locations (options located_parser) = true ∧
  ranges (options located_parser) = true ∧
  options located_parser_later = options located_parser ∧
  ∃ node loc,
    finishNode located_parser_later (startNode located_parser) "Identifier"
      = Returns node [] ∧
    node_type node = Some "Identifier" ∧
    node_start node = JNum (start located_parser) ∧
    node_end node = JNum (lastTokEnd located_parser_later) ∧
    node_range node = Some [node_start node; node_end node] ∧
    node_loc node = Some loc ∧
    sl_start loc = JPosition (startLoc located_parser) ∧
    sl_end loc = JPosition (lastTokEndLoc located_parser_later) ∧
    sl_start loc ≠ JUndefined ∧ sl_end loc ≠ JUndefined.
Proof.
  split; [reflexivity|]. split; [reflexivity|]. split; [reflexivity|].
  apply (startNode_finishNode_range_loc located_parser located_parser_later
           "Identifier"); reflexivity.
Defined.


(** [warned] is a variable of the call: nothing is remembered from one
    call to the next, and every accepted array call prints the message. *)
Lemma array_position_warns (this : Parser) (proc : Process)
    (offset : Z) (loc : jsval) :
  locations (options this) = true →
  throwDeprecation proc = false →
  traceDeprecation proc = false →
  ∃ node,
    startNodeAt this proc (JArr [JNum offset; loc]) JUndefined
      = Returns node [console_error startNodeAt_deprecated].
Proof.
  intros Hloc Hthrow Htrace. unfold startNodeAt, deprecate.
  rewrite Hloc, Hthrow, Htrace. cbn. eauto.
Qed.



End NodeLifecycleProperties.

(** ** Registries *)

Section RegistryProperties.
Import Registry.
Context {E : Type} (undefined : E).
Implicit Types (h : heap E) (a obj : nat) (key : string).


Lemma get_fuel_agree n h h' f a key :
  wf_heap h → agree_below n h h' → (a < n)%nat →
  get_fuel undefined f h' a key = get_fuel undefined f h a key.
Proof.
  intros Hwf Hag. revert a. induction f as [|f IH]; intros a Ha; [done|].
  cbn. rewrite (Hag a Ha). destruct (h !! a) as [o|] eqn:Ho; [|done].
  destruct (own o !! key); [done|].
  destruct (proto o) as [p|] eqn:Hp; [|done].
  apply IH. specialize (Hwf a o p Ho Hp). lia.
Qed.

Lemma has_fuel_agree n h h' f a key :
  wf_heap h → agree_below n h h' → (a < n)%nat →
  has_fuel f h' a key = has_fuel f h a key.
Proof.
  intros Hwf Hag. revert a. induction f as [|f IH]; intros a Ha; [done|].
  cbn. rewrite (Hag a Ha). destruct (h !! a) as [o|] eqn:Ho; [|done].
  destruct (own o !! key); [done|].
  destruct (proto o) as [p|] eqn:Hp; [|done].
  apply IH. specialize (Hwf a o p Ho Hp). lia.
Qed.

Lemma for_in_fuel_agree n h h' f a :
  wf_heap h → agree_below n h h' → (a < n)%nat →
  for_in_fuel f h' a = for_in_fuel f h a.
Proof.
  intros Hwf Hag. revert a. induction f as [|f IH]; intros a Ha; [done|].
  cbn. rewrite (Hag a Ha). destruct (h !! a) as [o|] eqn:Ho; [|done].
  destruct (proto o) as [p|] eqn:Hp; [|done].
  rewrite IH; [done|]. specialize (Hwf a o p Ho Hp). lia.
Qed.

Lemma get_fuel_enough h f1 f2 a key :
  wf_heap h → (a < f1)%nat → (a < f2)%nat →
  get_fuel undefined f1 h a key = get_fuel undefined f2 h a key.
Proof.
  intros Hwf. revert f2 a. induction f1 as [|f1 IH]; intros f2 a H1 H2; [lia|].
  destruct f2 as [|f2]; [lia|]. cbn.
  destruct (h !! a) as [o|] eqn:Ho; [|done].
  destruct (own o !! key); [done|].
  destruct (proto o) as [p|] eqn:Hp; [|done].
  specialize (Hwf a o p Ho Hp). apply IH; lia.
Qed.

Lemma for_in_fuel_has f h a key :
  key ∈ for_in_fuel f h a ↔ has_fuel f h a key = true.
Proof.
  revert a. induction f as [|f IH]; intros a; cbn.
  { split; [by intros ?%elem_of_nil|done]. }
  destruct (h !! a) as [o|]; [|split; [by intros ?%elem_of_nil|done]].
  assert (Hmine : key ∈ (map_to_list (own o)).*1 ↔ is_Some (own o !! key)).
  { rewrite list_elem_of_fmap. split.
    - intros [[k v] [-> Hkv%elem_of_map_to_list]]. by eexists.
    - intros [v Hv]. exists (key, v). split; [done|]. by apply elem_of_map_to_list. }
  rewrite elem_of_app, Hmine.
  destruct (own o !! key) as [v|] eqn:Hk.
  { split; [done|]. intros _. left. by eexists. }
  rewrite (list_elem_of_In (List.filter _ _)), filter_In, <- list_elem_of_In, bool_decide_eq_true.
  rewrite Hmine.
  destruct (proto o) as [p|].
  - rewrite IH. split.
    + intros [[? [=]]|[? _]]; done.
    + intros ?. right. split; [done|]. by intros [? [=]].
  - split; [|done]. intros [[? [=]]|[?%elem_of_nil _]]; done.
Qed.

Lemma set_lookup_ne h obj key v a :
  a ≠ obj → set h obj key v !! a = h !! a.
Proof.
  intros Hne. unfold set. destruct (h !! obj); [|done].
  by rewrite list_lookup_insert_ne.
Qed.

Lemma set_lookup_eq h obj key v o :
  h !! obj = Some o →
  set h obj key v !! obj = Some (mkObject (<[key := v]> (own o)) (proto o)).
Proof.
  intros Ho. unfold set. rewrite Ho.
  apply list_lookup_insert_eq. by eapply lookup_lt_Some.
Qed.

Lemma set_length h obj key v : length (set h obj key v) = length h.
Proof. unfold set. destruct (h !! obj); [|done]. by rewrite length_insert. Qed.

(** The copying loop of [make], started on a heap that agrees with [h]
    below the new object [visitor]. *)
Lemma copy_loop h funcs visitor b keys :
  wf_heap h → (funcs < visitor)%nat →
  ∀ hcur m0,
    agree_below visitor h hcur →
    hcur !! visitor = Some (mkObject m0 (Some b)) →
    let hf := foldl (λ h type, set h visitor type (get undefined h funcs type))
                hcur keys in
    agree_below visitor h hf ∧ length hf = length hcur ∧
    ∃ m, hf !! visitor = Some (mkObject m (Some b)) ∧
         ∀ key, m !! key = if decide (key ∈ keys)
                           then Some (get undefined h funcs key)
                           else m0 !! key.
Proof.
  intros Hwf Hfuncs. induction keys as [|k keys IH]; intros hcur m0 Hag Hv; cbn.
  { split; [done|]. split; [done|]. exists m0. split; [done|].
    intros key. case_decide as Hin; [by apply elem_of_nil in Hin|done]. }
  set (hnext := set hcur visitor k (get undefined hcur funcs k)).
  assert (Hget : get undefined hcur funcs k = get undefined h funcs k).
  { unfold get. by eapply get_fuel_agree. }
  destruct (IH hnext (<[k := get undefined h funcs k]> m0)) as (Hag' & Hlen & m & Hm & Hkeys).
  - intros a Ha. unfold hnext. rewrite set_lookup_ne by lia. by apply Hag.
  - unfold hnext. rewrite Hget. by rewrite (set_lookup_eq _ _ _ _ _ Hv).
  - split; [done|]. split; [etrans; [apply Hlen|]; apply set_length|].
    exists m. split; [done|]. intros key. rewrite Hkeys.
    destruct (decide (key = k)) as [->|Hne].
    + rewrite lookup_insert_eq.
      rewrite (decide_True (P := k ∈ k :: keys)) by apply list_elem_of_here.
      by case_decide.
    + rewrite lookup_insert_ne by done.
      destruct (decide (key ∈ keys)) as [Hin|Hin].
      * rewrite decide_True by (by apply list_elem_of_further). done.
      * rewrite decide_False; [done|]. by intros [?|?]%elem_of_cons.
Qed.

Lemma wf_heap_lookup_lt h a o p :
  wf_heap h → h !! a = Some o → proto o = Some p → (p < length h)%nat.
Proof.
  intros Hwf Ho Hp. specialize (Hwf a o p Ho Hp).
  apply lookup_lt_Some in Ho. lia.
Qed.

Lemma get_unfold h a o key :
  h !! a = Some o →
  get undefined h a key =
    match own o !! key with
    | Some v => v
    | None => match proto o with
              | Some p => get_fuel undefined a h p key
              | None => undefined
              end
    end.
Proof. intros Ho. unfold get. cbn. by rewrite Ho. Qed.

(** One derivation. *)
Lemma make_spec exports_base h funcs base :
  let b := match base with Some b => b | None => exports_base end in
  wf_heap h → (funcs < length h)%nat → (b < length h)%nat →
  let '(h', visitor) := make undefined exports_base h funcs base in
  visitor = length h ∧ length h' = S (length h) ∧ wf_heap h' ∧
  (∀ a, (a < length h)%nat → h' !! a = h !! a) ∧
  (∀ a type, (a < length h)%nat →
     get undefined h' a type = get undefined h a type ∧
     has h' a type = has h a type) ∧
  (∀ type, get undefined h' visitor type =
           if has h funcs type then get undefined h funcs type
           else get undefined h b type).
Proof.
  intros b Hwf Hfuncs Hb. unfold make, create. fold b.
  set (h1 := h ++ [mkObject ∅ (Some b)]).
  assert (Hag1 : agree_below (length h) h h1).
  { intros a Ha. unfold h1. by rewrite lookup_app_l. }
  assert (Hv1 : h1 !! length h = Some (mkObject (∅ : gmap string E) (Some b))).
  { unfold h1. by rewrite list_lookup_middle. }
  destruct (copy_loop h funcs (length h) b (for_in h1 funcs) Hwf Hfuncs h1 ∅ Hag1 Hv1)
    as (Hag & Hlen & m & Hm & Hkeys).
  set (hf := foldl _ h1 _) in *.
  assert (Hlenf : length hf = S (length h)).
  { rewrite Hlen. unfold h1. rewrite length_app. cbn. lia. }
  assert (Hwff : wf_heap hf).
  { intros a o p Ho Hp. destruct (decide (a < length h)%nat) as [Ha|Ha].
    - rewrite Hag in Ho by done. by eapply Hwf.
    - assert (a = length h) as -> by (apply lookup_lt_Some in Ho; lia).
      rewrite Hm in Ho. injection Ho as <-. cbn in Hp. injection Hp as <-. done. }
  repeat split; try done.
  - unfold get. by eapply get_fuel_agree.
  - unfold has. by eapply has_fuel_agree.
  - intros type. rewrite (get_unfold _ _ _ _ Hm). cbn [own proto]. rewrite Hkeys.
    assert (Hin : type ∈ for_in h1 funcs ↔ has h funcs type = true).
    { unfold for_in, has. rewrite (for_in_fuel_agree (length h) h h1) by done.
      apply for_in_fuel_has. }
    case_decide as Hd.
    + apply Hin in Hd. by rewrite Hd.
    + destruct (has h funcs type); [by exfalso; apply Hd, Hin|].
      rewrite (get_fuel_agree (length h) h hf) by done.
      unfold get. apply get_fuel_enough; [done|lia..].
Qed.

End RegistryProperties.

Section RegistryDerivation.
Import Registry.
Context {E : Type} (undefined : E).

(** C7. The registry that [make] returns reads, for a type that is a
    property of [funcs], what [funcs] reads, and for any other type what
    the base registry reads; no object that existed before, the base
    registry included, is written.  Deriving again from the derived registry
    layers the lookups: the new overrides, then the first ones, then the
    base. *)
Theorem make_layers (exports_base : nat) (h : heap E) (funcs1 funcs2 : nat)
    (base : option nat) :
  let b := match base with Some b => b | None => exports_base end in
  wf_heap h →
  (funcs1 < length h)%nat → (funcs2 < length h)%nat → (b < length h)%nat →
  let derived := make undefined exports_base h funcs1 base in
  let derived2 := make undefined exports_base derived.1 funcs2 (Some derived.2) in
  (∀ type,
     get undefined derived.1 derived.2 type
     = if has h funcs1 type then get undefined h funcs1 type
       else get undefined h b type) ∧
  (∀ a, (a < length h)%nat → derived.1 !! a = h !! a) ∧
  (∀ type,
     get undefined derived2.1 derived2.2 type
     = if has h funcs2 type then get undefined h funcs2 type
       else if has h funcs1 type then get undefined h funcs1 type
       else get undefined h b type) ∧
  (∀ a, (a < length derived.1)%nat → derived2.1 !! a = derived.1 !! a).
Proof.
  intros b Hwf Hf1 Hf2 Hb derived derived2.
  pose proof (make_spec undefined exports_base h funcs1 base Hwf Hf1 Hb) as H1.
  fold derived in H1. destruct derived as [h1 v1] eqn:Hd. cbn [fst snd] in *.
  destruct H1 as (-> & Hlen1 & Hwf1 & Hold1 & Hget1 & Hnew1).
  pose proof (make_spec undefined exports_base h1 funcs2 (Some (length h)) Hwf1) as H2.
  cbn zeta in H2. fold derived2 in H2.
  destruct derived2 as [h2 v2] eqn:Hd2. cbn [fst snd] in *.
  destruct H2 as (-> & Hlen2 & Hwf2 & Hold2 & Hget2 & Hnew2); [lia..|].
  split; [done|]. split; [done|]. split; [|done].
  intros type. rewrite Hnew2.
  destruct (Hget1 funcs2 type Hf2) as [-> ->].
  destruct (has h funcs2 type); [done|]. apply Hnew1.
Qed.

End RegistryDerivation.

(** ** The walker *)

Section WalkProperties.
Import Walk.
Implicit Types (t sub : calltree) (d : call) (p : script) (base : registry).
Implicit Types (log : list call) (ks : list calltree).

(** *** Trees of calls *)

Lemma calltree_ind' (P : calltree → Prop) :
  (∀ d ks, Forall P ks → P (CallNode d ks)) → ∀ t, P t.
Proof.
  intros H. fix IH 1. intros [d ks]. apply H.
  induction ks as [|k ks IHks]; constructor; [apply IH|apply IHks].
Qed.

Lemma elem_of_flat_map {A B} (f : A → list B) (l : list A) (y : B) :
  y ∈ flat_map f l ↔ ∃ x, x ∈ l ∧ y ∈ f x.
Proof.
  rewrite list_elem_of_In, in_flat_map. split.
  - intros (x & Hx & Hy). exists x. by rewrite !list_elem_of_In.
  - intros (x & Hx & Hy). exists x. by rewrite <- !list_elem_of_In.
Qed.

Lemma Forall_flat_map {A B} (P : B → Prop) (f : A → list B) (l : list A) :
  Forall P (flat_map f l) ↔ Forall (λ x, Forall P (f x)) l.
Proof.
  induction l as [|x l IH]; cbn.
  - split; constructor.
  - rewrite Forall_app, Forall_cons, IH. done.
Qed.

Lemma at_path_app t path1 path2 sub :
  at_path t path1 = Some sub →
  at_path t (path1 ++ path2) = at_path sub path2.
Proof.
  revert t. induction path1 as [|i path1 IH]; intros t Hsub; cbn in *.
  - by injection Hsub as ->.
  - destruct (kids t !! i); [|done]. by apply IH.
Qed.

Lemma at_path_preorder t path sub :
  at_path t path = Some sub → root_call sub ∈ preorder t.
Proof.
  revert t. induction path as [|i path IH]; intros [d ks] Hsub; cbn in *.
  - injection Hsub as <-. cbn. apply list_elem_of_here.
  - destruct (ks !! i) as [k|] eqn:Hk; [|done].
    apply list_elem_of_further, elem_of_flat_map. exists k. split.
    + by eapply list_elem_of_lookup_2.
    + by apply IH.
Qed.


(** *** [simple] *)

Lemma visits_app visitors l1 l2 :
  visits visitors (l1 ++ l2) = visits visitors l1 ++ visits visitors l2.
Proof. unfold visits. by rewrite List.filter_app, fmap_app. Qed.

Lemma visits_singleton visitors d :
  visits visitors [d] = if visitors (call_type d) then [visit_of d] else [].
Proof. unfold visits. cbn. by destruct (visitors _). Qed.

Lemma simple_c_calltree visitors base fuel :
  ∀ v st ov t calls,
    calltree_of base fuel v st ov = Some t →
    simple_c visitors base fuel v st ov calls
      = Normal (calls ++ visits visitors (postorder t)).
Proof.
  induction fuel as [|fuel IH]; intros v st ov t calls Ht; [done|].
  cbn in Ht |- *. destruct v as [| | |n|]; try done.
  destruct (base (or_type ov (node_type n))) as [walk|]; [|done].
  destruct (calls_of_script _ _) as [ks|] eqn:Hks; [|done].
  injection Ht as <-.
  assert (Hrun : ∀ p ks calls,
    calls_of_script (calltree_of base fuel) p = Some ks →
    run (simple_c visitors base fuel) p calls
      = Normal (calls ++ visits visitors (flat_map postorder ks))).
  { clear -IH. induction p as [| |child st ov rest IHp]; intros ks calls Hks; cbn in *.
    - injection Hks as <-. by rewrite app_nil_r.
    - done.
    - destruct (calltree_of base fuel child st ov) as [t|] eqn:Ht; [|done].
      destruct (calls_of_script _ rest) as [ts|] eqn:Hts; [|done].
      injection Hks as <-. rewrite (IH _ _ _ _ _ Ht), (IHp _ _ eq_refl).
      cbn. by rewrite visits_app, app_assoc. }
  rewrite (Hrun _ _ _ Hks). cbn [postorder].
  rewrite visits_app, visits_singleton. unfold visit_of, call_type. cbn.
  destruct (visitors _); cbn; by rewrite ?app_nil_r, ?app_assoc.
Qed.

(** *** [ancestor] *)

Lemma removelast_snoc {A} (l : list A) (x : A) : removelast (l ++ [x]) = l.
Proof. apply removelast_last. Qed.

Lemma ancestor_c_calltree visitors base fuel :
  ∀ v st ov t ancestors calls,
    calltree_of base fuel v st ov = Some t →
    ancestor_c visitors base fuel v st ov (ancestors, calls)
      = Normal (ancestors, calls ++ ancestor_visits visitors ancestors t).
Proof.
  induction fuel as [|fuel IH]; intros v st ov t ancestors calls Ht; [done|].
  cbn in Ht |- *. destruct v as [| | |n|]; try done.
  destruct (base (or_type ov (node_type n))) as [walk|]; [|done].
  destruct (calls_of_script _ _) as [ks|] eqn:Hks; [|done].
  injection Ht as <-.
  assert (Hrun : ∀ p ks ancestors calls,
    calls_of_script (calltree_of base fuel) p = Some ks →
    run (ancestor_c visitors base fuel) p (ancestors, calls)
      = Normal (ancestors,
                calls ++ flat_map (ancestor_visits visitors ancestors) ks)).
  { clear -IH. induction p as [| |child st ov rest IHp];
      intros ks ancestors calls Hks; cbn in *.
    - injection Hks as <-. by rewrite app_nil_r.
    - done.
    - destruct (calltree_of base fuel child st ov) as [t|] eqn:Ht; [|done].
      destruct (calls_of_script _ rest) as [ts|] eqn:Hts; [|done].
      injection Hks as <-. rewrite (IH _ _ _ _ _ _ Ht), (IHp _ _ _ eq_refl).
      cbn. by rewrite app_assoc. }
  rewrite (Hrun _ _ _ _ Hks). cbn [ancestor_visits call_node call_state].
  unfold call_type. cbn [call_node call_override].
  destruct (differs n (top ancestors)), (visitors _);
    rewrite ?removelast_snoc, ?app_nil_r, ?app_assoc; done.
Qed.

(** *** The searches *)












(** What the inner function of [findNodeBefore] does on a call of tree [t]:
    it goes through the whole scan and keeps the best call in [max]. *)
Lemma best_app pos test max l1 l2 :
  best pos test max (l1 ++ l2) = best pos test (best pos test max l1) l2.
Proof. unfold best. by rewrite foldl_app. Qed.

Lemma findNodeBefore_c_scan pos test base fuel :
  ∀ v st ov t max log,
    calltree_of base fuel v st ov = Some t →
    findNodeBefore_c pos test base fuel v st ov (max, log)
      = Normal (best pos test max (before_scan pos t), log ++ before_scan pos t).
Proof.
  induction fuel as [|fuel IH]; intros v st ov t max log Ht; [done|].
  cbn in Ht. destruct v as [| | |n|]; try done.
  destruct (base (or_type ov (node_type n))) as [walk|] eqn:Hwalk; [|done].
  destruct (calls_of_script _ _) as [ks|] eqn:Hks; [|done].
  injection Ht as <-.
  assert (Hrun : ∀ p ks max log,
    calls_of_script (calltree_of base fuel) p = Some ks →
    run (findNodeBefore_c pos test base fuel) p (max, log)
      = Normal (best pos test max (flat_map (before_scan pos) ks),
                log ++ flat_map (before_scan pos) ks)).
  { clear -IH. induction p as [| |child st ov rest IHp]; intros ks max log Hks; cbn in *.
    - injection Hks as <-. cbn. by rewrite app_nil_r.
    - done.
    - destruct (calltree_of base fuel child st ov) as [t|] eqn:Ht; [|done].
      destruct (calls_of_script _ rest) as [ts|] eqn:Hts; [|done].
      injection Hks as <-. rewrite (IH _ _ _ _ _ _ Ht), (IHp _ _ _ eq_refl).
      cbn [flat_map]. by rewrite best_app, app_assoc. }
  cbn [findNodeBefore_c before_scan call_node].
  destruct (node_start n >? pos) eqn:Hstart.
  { cbn. by rewrite app_nil_r. }
  rewrite Hwalk, (Hrun _ _ _ _ Hks). rewrite <- app_assoc. done.
Qed.




(** *** Scans and the orders of the tree *)





Lemma filter_none {A} (P : A → bool) (l : list A) :
  Forall (λ x, P x = false) l → List.filter P l = [].
Proof. induction 1 as [|x l Hx _ IH]; cbn; [done|]. by rewrite Hx. Qed.

Lemma within_spec inner outer :
  within inner outer = true ↔
  node_start outer ≤ node_start inner ∧ node_end inner ≤ node_end outer.
Proof. unfold within. rewrite andb_true_iff, !Z.leb_le. done. Qed.

Lemma nested_kids d ks :
  nested (CallNode d ks) = true →
  Forall (λ k, within (call_node (root_call k)) (call_node d) = true) ks ∧
  Forall (λ k, nested k = true) ks.
Proof.
  cbn. rewrite andb_true_iff, !forallb_forall, !Forall_forall.
  intros [H1 H2]. split; intros k Hk%list_elem_of_In; auto.
Qed.

(** In a nested tree every call is on a node within the node of the root. *)
Lemma nested_within t :
  nested t = true →
  Forall (λ d, within (call_node d) (call_node (root_call t)) = true) (preorder t).
Proof.
  induction t as [d ks IH] using calltree_ind'. intros [Hin Hnest]%nested_kids.
  cbn. constructor.
  { apply within_spec. lia. }
  apply Forall_flat_map. rewrite Forall_forall in *. intros k Hk.
  specialize (IH k Hk (Hnest k Hk)). specialize (Hin k Hk).
  rewrite Forall_forall in *. intros d' Hd'. specialize (IH d' Hd').
  apply within_spec in IH. apply within_spec in Hin. apply within_spec. lia.
Qed.






Lemma spanned_spec t d :
  spanned t = true → d ∈ preorder t →
  node_start (call_node d) ≤ node_end (call_node d).
Proof.
  unfold spanned. rewrite forallb_forall. intros H Hd%list_elem_of_In.
  apply Z.leb_le. auto.
Qed.

(** *** The best call of a scan *)

Lemma best_snoc pos test max l d :
  best pos test max (l ++ [d]) =
    if (node_end (call_node d) <=? pos)
       && improves (best pos test max l) (call_node d) && passes test d
    then Some (found_of d) else best pos test max l.
Proof. unfold best. by rewrite foldl_app. Qed.


Lemma best_spec pos test l :
  match best pos test None l with
  | None => Forall (λ d, before_match pos test d = false) l
  | Some f => ∃ i d, f = found_of d ∧ first_widest pos test l i d
  end.
Proof.
  induction l as [|x l IH] using rev_ind; [constructor|].
  rewrite best_snoc.
  destruct (node_end (call_node x) <=? pos) eqn:Hend; cbn [andb].
  2:{ assert (Hx : before_match pos test x = false).
      { unfold before_match. by rewrite Hend. }
      destruct (best pos test None l) as [f|].
      - destruct IH as (i & d & -> & Hi & Hm & Hmax & Hfirst).
        exists i, d. split; [done|]. split; [|split; [done|split]].
        + by apply lookup_app_l_Some.
        + intros j d' [Hj|[_ Hj]]%lookup_app_Some Hd'; [by eauto|].
          destruct (j - length l)%nat; [|done]. injection Hj as <-. congruence.
        + intros j d' Hlt [Hj|[_ Hj]]%lookup_app_Some Hd'; [by eauto|].
          destruct (j - length l)%nat; [|done]. injection Hj as <-. congruence.
      - apply Forall_app. split; [done|]. by repeat constructor. }
  destruct (passes test x) eqn:Hpass; rewrite ?andb_true_r, ?andb_false_r.
  2:{ assert (Hx : before_match pos test x = false).
      { unfold before_match. by rewrite Hpass, andb_false_r. }
      destruct (best pos test None l) as [f|].
      - destruct IH as (i & d & -> & Hi & Hm & Hmax & Hfirst).
        exists i, d. split; [done|]. split; [|split; [done|split]].
        + by apply lookup_app_l_Some.
        + intros j d' [Hj|[_ Hj]]%lookup_app_Some Hd'; [by eauto|].
          destruct (j - length l)%nat; [|done]. injection Hj as <-. congruence.
        + intros j d' Hlt [Hj|[_ Hj]]%lookup_app_Some Hd'; [by eauto|].
          destruct (j - length l)%nat; [|done]. injection Hj as <-. congruence.
      - apply Forall_app. split; [done|]. by repeat constructor. }
  assert (Hx : before_match pos test x = true).
  { unfold before_match. by rewrite Hend, Hpass. }
  destruct (best pos test None l) as [f|]; cbn [improves].
  - destruct IH as (i & d & -> & Hi & Hm & Hmax & Hfirst). cbn [found_of found_node].
    destruct (node_end (call_node d) <? node_end (call_node x)) eqn:Hlt.
    + apply Z.ltb_lt in Hlt. exists (length l), x. split; [done|].
      split; [by apply list_lookup_middle|]. split; [done|]. split.
      * intros j d' [Hj|[_ Hj]]%lookup_app_Some Hd'.
        -- specialize (Hmax _ _ Hj Hd'). lia.
        -- destruct (j - length l)%nat; [|done]. injection Hj as <-. lia.
      * intros j d' Hj' [Hj|[Hge _]]%lookup_app_Some Hd'; [|lia].
        specialize (Hmax _ _ Hj Hd'). lia.
    + apply Z.ltb_ge in Hlt. exists i, d. split; [done|].
      split; [by apply lookup_app_l_Some|]. split; [done|]. split.
      * intros j d' [Hj|[_ Hj]]%lookup_app_Some Hd'; [by eauto|].
        destruct (j - length l)%nat; [|done]. by injection Hj as <-.
      * intros j d' Hj' [Hj|[Hge _]]%lookup_app_Some Hd'; [by eauto|].
        apply lookup_lt_Some in Hi. lia.
  - exists (length l), x. split; [done|].
    split; [by apply list_lookup_middle|]. split; [done|].
    rewrite Forall_forall in IH. split.
    + intros j d' [Hj|[_ Hj]]%lookup_app_Some Hd'.
      * apply list_elem_of_lookup_2, IH in Hj. congruence.
      * destruct (j - length l)%nat; [|done]. injection Hj as <-. lia.
    + intros j d' Hj' [Hj|[Hge _]]%lookup_app_Some Hd'; [|lia].
      apply list_elem_of_lookup_2, IH in Hj. congruence.
Qed.

(** *** The searches, on trees that satisfy the interval invariant *)








Lemma flat_map_lookup {A B} (f : A → list B) (l : list A) (i : nat) (x : A) :
  l !! i = Some x →
  flat_map f l = flat_map f (take i l) ++ f x ++ flat_map f (drop (S i) l).
Proof.
  intros Hi. rewrite <- (take_drop_middle l i x Hi) at 1.
  by rewrite flat_map_app.
Qed.

(** In a nested tree, the scan of [findNodeBefore] goes through every
    subtree whose root does not start after [pos], root first. *)
Lemma before_scan_at_path pos t path sub :
  nested t = true →
  at_path t path = Some sub →
  node_start (call_node (root_call sub)) ≤ pos →
  ∃ l1 l2, before_scan pos t = l1 ++ before_scan pos sub ++ l2.
Proof.
  revert t. induction path as [|i path IH]; intros t Hnest Hsub Hstart; cbn in Hsub.
  { injection Hsub as <-. exists [], []. by rewrite app_nil_r. }
  destruct t as [d ks]. cbn in Hsub.
  destruct (ks !! i) as [k|] eqn:Hk; [|done].
  pose proof (nested_within _ Hnest) as Hin. rewrite Forall_forall in Hin.
  assert (Hd : root_call sub ∈ preorder (CallNode d ks)).
  { apply (at_path_preorder _ (i :: path)). cbn. by rewrite Hk. }
  apply Hin, within_spec in Hd. cbn in Hd.
  apply nested_kids in Hnest as [_ Hnest]. rewrite Forall_forall in Hnest.
  destruct (IH k) as (l1 & l2 & Hscan); [|done..|].
  { apply Hnest. by eapply list_elem_of_lookup_2. }
  cbn. destruct (node_start (call_node d) >? pos) eqn:Hgt.
  { apply Z.gtb_lt in Hgt. lia. }
  rewrite (flat_map_lookup _ _ _ _ Hk), Hscan.
  exists (d :: flat_map (before_scan pos) (take i ks) ++ l1),
         (l2 ++ flat_map (before_scan pos) (drop (S i) ks)).
  cbn. by rewrite <- !app_assoc.
Qed.

(** C9. When several calls qualify for [findNodeBefore] with the same
    largest end, the one returned is the first of them in the scan, which
    goes through a call before the calls below it: every qualifying call
    scanned earlier ends strictly before the returned one, and the returned
    call stands no later than any qualifying call of the same end, an
    enclosing one included. *)
Theorem findNodeBefore_first_of_widest (base : option registry) (fuel : nat)
    (root : node) (pos : Z) (test : type_test) (st : value) (t : calltree)
    (f : found) :
  calltree_of (or_base base) fuel (VObj root) st None = Some t →
  findNodeBefore fuel root pos test base st = Returns (Some f) →
  ∃ i d,
    f = found_of d ∧
    first_widest pos (makeTest test) (before_scan pos t) i d ∧
    (nested t = true → spanned t = true →
     ∀ path sub,
       at_path t path = Some sub →
       before_match pos (makeTest test) (root_call sub) = true →
       node_end (call_node (root_call sub)) = node_end (found_node f) →
       ∃ l1 l2,
         before_scan pos t
           = l1 ++ (root_call sub :: flat_map (before_scan pos) (kids sub)) ++ l2 ∧
         (i ≤ length l1)%nat).
Proof.
  intros Ht. unfold findNodeBefore, findNodeBefore_run. fold (or_base base).
  rewrite (findNodeBefore_c_scan _ _ _ _ _ _ _ _ _ _ Ht). intros [= Hf].
  pose proof (best_spec pos (makeTest test) (before_scan pos t)) as H.
  rewrite Hf in H. destruct H as (i & d & -> & Hfirst).
  exists i, d. split; [done|]. split; [done|].
  intros Hnest Hspan path sub Hsub Hm Hend.
  assert (Hstart : node_start (call_node (root_call sub)) ≤ pos).
  { pose proof (spanned_spec _ _ Hspan (at_path_preorder _ _ _ Hsub)).
    apply andb_true_iff in Hm as [Hle%Z.leb_le _]. lia. }
  destruct (before_scan_at_path _ _ _ _ Hnest Hsub Hstart) as (l1 & l2 & Hscan).
  assert (Hsubscan : before_scan pos sub
            = root_call sub :: flat_map (before_scan pos) (kids sub)).
  { destruct sub as [d' ks']. cbn in *.
    destruct (node_start (call_node d') >? pos) eqn:Hgt; [|done].
    apply Z.gtb_lt in Hgt. lia. }
  rewrite Hsubscan in Hscan. exists l1, l2. split; [done|].
  destruct Hfirst as (_ & _ & _ & Hearlier).
  destruct (decide (i ≤ length l1)%nat) as [|Hlt]; [done|].
  assert (Hroot : before_scan pos t !! length l1 = Some (root_call sub)).
  { rewrite Hscan. by apply list_lookup_middle. }
  assert (Hlt' : (length l1 < i)%nat) by lia.
  specialize (Hearlier _ _ Hlt' Hroot Hm). cbn in Hend. lia.
Qed.


End WalkProperties.

(** ** Registries that follow the shape of the tree *)

Section PlainRegistries.
Import Walk.
Implicit Types (t sub : calltree) (d : call) (p q : script) (base : registry).
Implicit Types (v : value) (n m : node).

Lemma value_ind' (P : value → Prop) :
  P VUndefined → P VNull → (∀ b, P (VBool b)) →
  (∀ a ty s e fs, Forall (λ f, P f.2) fs → P (VObj (Node a ty s e fs))) →
  (∀ l, Forall P l → P (VArr l)) →
  ∀ v, P v.
Proof.
  intros Hu Hn Hb Ho Ha. fix IH 1.
  intros [| |b|[a ty s e fs]|l]; [exact Hu|exact Hn|apply Hb| |].
  - apply Ho. induction fs as [|[k x] fs IHfs]; constructor; [apply IH|apply IHfs].
  - apply Ha. induction l as [|x l IHl]; constructor; [apply IH|apply IHl].
Qed.

Lemma subnodes_obj n : subnodes (VObj n) = n :: inner_nodes n.
Proof.
  destruct n as [a ty s e fs]. cbn. f_equal. unfold inner_nodes. cbn.
  induction fs as [|[k x] fs IH]; cbn; [done|]. by rewrite IH.
Qed.

Lemma subnodes_arr l : subnodes (VArr l) = flat_map subnodes l.
Proof. cbn. induction l as [|x l IH]; cbn; [done|]. by rewrite IH. Qed.

Lemma submseteq_flat_map_elem {A B} (f : A → list B) (l : list A) (x : A) :
  x ∈ l → f x ⊆+ flat_map f l.
Proof.
  intros (l1 & l2 & ->)%list_elem_of_split. rewrite flat_map_app. cbn.
  apply submseteq_inserts_l, submseteq_inserts_r. done.
Qed.

(** The nodes inside a node of a value are nodes of the value. *)
Lemma subnodes_inside v n :
  n ∈ subnodes v → subnodes (VObj n) ⊆+ subnodes v.
Proof.
  induction v as [| | |a ty s e fs IH|l IH] using value_ind';
    try by intros ?%elem_of_nil.
  - rewrite (subnodes_obj (Node a ty s e fs)).
    intros [->|Hn]%elem_of_cons; [by rewrite subnodes_obj|].
    apply submseteq_cons. unfold inner_nodes in *. cbn in *.
    apply list_elem_of_In, in_flat_map in Hn as (f & Hf%list_elem_of_In & Hn%list_elem_of_In).
    rewrite Forall_forall in IH. etrans; [by apply IH|].
    by apply (submseteq_flat_map_elem (λ f, subnodes f.2)).
  - rewrite subnodes_arr.
    intros (x & Hx%list_elem_of_In & Hn%list_elem_of_In)%list_elem_of_In%in_flat_map.
    rewrite Forall_forall in IH. etrans; [by apply IH|].
    by apply submseteq_flat_map_elem.
Qed.

(** *** The walkers of [base] are plain *)



Lemma tame_done st : tame st Done [].
Proof. split; [constructor|done]. Qed.

Lemma tame_weaken st p l l' : tame st p l → l ⊆+ l' → tame st p l'.
Proof. intros [? ?] ?. split; [done|]. by etrans. Qed.

Lemma tame_last st p l : tame st p l → tame st p (l ++ []).
Proof. by rewrite app_nil_r. Qed.

Lemma tame_c st v override : tame st (c v st override) (subnodes v).
Proof.
  split; [by repeat constructor|]. unfold reach. cbn. by rewrite app_nil_r.
Qed.

Lemma script_calls_then p q :
  script_calls (p >> q) = script_calls p ++ script_calls q ∨
  script_calls (p >> q) = script_calls p.
Proof.
  induction p as [| |child st override rest IH]; cbn.
  - by left.
  - by right.
  - destruct IH as [-> | ->]; [by left|by right].
Qed.

Lemma tame_then st p q l1 l2 :
  tame st p l1 → tame st q l2 → tame st (p >> q) (l1 ++ l2).
Proof.
  intros [Hp1 Hp2] [Hq1 Hq2]. unfold tame, reach in *.
  destruct (script_calls_then p q) as [-> | ->].
  - split; [by apply Forall_app|]. rewrite flat_map_app. by apply submseteq_app.
  - split; [done|]. by apply submseteq_inserts_r.
Qed.

Lemma tame_when st v p l : tame st p l → tame st (when v p) l.
Proof.
  intros Hp. unfold when. destruct (truthy v); [done|].
  eapply tame_weaken; [apply tame_done|apply submseteq_nil_l].
Qed.

Lemma tame_if st (b : bool) p q l :
  tame st p l → tame st q l → tame st (if b then p else q) l.
Proof. by destruct b. Qed.

Lemma tame_fail st l : tame st Fail l.
Proof. split; [constructor|apply submseteq_nil_l]. Qed.

Lemma tame_for_of st v (body : value → script) :
  (∀ x, tame st (body x) (subnodes x)) →
  tame st (for_of v body) (subnodes v).
Proof.
  intros Hbody. destruct v as [| | | |l]; try apply tame_fail.
  rewrite subnodes_arr. cbn.
  induction l as [|x l IH]; cbn; [apply tame_done|]. by apply tame_then.
Qed.

Lemma tame_with_type st v (k : option string → script) l :
  (∀ ty, tame st (k ty) l) → tame st (with_type v k) l.
Proof. intros Hk. destruct v; cbn; auto using tame_fail. Qed.

Lemma subnodes_assoc name fs :
  subnodes (assoc name fs) ⊆+ flat_map (λ f, subnodes f.2) fs.
Proof.
  induction fs as [|[k x] fs IH]; cbn; [done|].
  destruct (String.eqb k name).
  - by apply submseteq_inserts_r.
  - by apply submseteq_inserts_l.
Qed.

Lemma tame_with_field st v name (k : value → script) :
  (∀ x, tame st (k x) (subnodes x)) →
  tame st (with_field v name k) (subnodes v).
Proof.
  intros Hk. destruct v as [| |b|n|l]; cbn [with_field]; try apply tame_fail.
  - eapply tame_weaken; [apply Hk|]. apply submseteq_nil_l.
  - eapply tame_weaken; [apply Hk|]. rewrite subnodes_obj.
    apply submseteq_cons, subnodes_assoc.
  - eapply tame_weaken; [apply Hk|]. apply submseteq_nil_l.
Qed.

(** The fields of different names lie in separate places. *)
Lemma gets_nil names : gets [] names = [].
Proof. unfold gets. induction names as [|k names IH]; cbn; [done|]. done. Qed.

Lemma gets_cons_other k x fs names :
  k ∉ names → gets ((k, x) :: fs) names = gets fs names.
Proof.
  unfold gets. induction names as [|name names IH]; intros Hk; cbn [flat_map]; [done|].
  apply not_elem_of_cons in Hk as [Hne Hk]. rewrite (IH Hk). cbn [assoc].
  destruct (String.eqb_spec k name); [congruence|done].
Qed.

Lemma gets_fields fs names :
  NoDup names → gets fs names ⊆+ flat_map (λ f, subnodes f.2) fs.
Proof.
  revert names. induction fs as [|[k x] fs IH]; intros names Hnames.
  { by rewrite gets_nil. }
  cbn [flat_map snd]. destruct (decide (k ∈ names)) as [Hin|Hout].
  - apply list_elem_of_split in Hin as (names1 & names2 & ->).
    apply NoDup_app in Hnames as (Hn1 & Hdis & [Hk Hn2]%NoDup_cons).
    assert (k ∉ names1) by (intros ?; eapply Hdis; [done|apply list_elem_of_here]).
    specialize (IH (names1 ++ names2)).
    unfold gets in *. rewrite flat_map_app in *. cbn [flat_map].
    fold (gets ((k, x) :: fs) names1) (gets ((k, x) :: fs) names2).
    rewrite !gets_cons_other by done. cbn [assoc]. rewrite String.eqb_refl.
    unfold gets. etrans; [apply Permutation_submseteq, Permutation_app_swap_app|].
    apply submseteq_skips_l, IH.
    apply NoDup_app. split; [done|]. split; [|done].
    intros y Hy1 Hy2. eapply Hdis; [done|]. by apply list_elem_of_further.
  - rewrite gets_cons_other by done. by apply submseteq_inserts_l, IH.
Qed.

Lemma tame_plain (walk : walker) (names : list string) :
  NoDup names →
  (∀ n st, tame st (walk n st) (gets (node_fields n) names)) →
  plain_walker walk.
Proof.
  intros Hnames Hwalk n st. destruct (Hwalk n st) as [Hst Hreach].
  split; [done|]. right. etrans; [done|]. by apply gets_fields.
Qed.

Lemma redispatch_plain (walk : walker) :
  (∀ n st, ∃ override, walk n st = c (VObj n) st override) →
  plain_walker walk.
Proof.
  intros Hwalk n st. destruct (Hwalk n st) as [override ->].
  split; [by repeat constructor|]. left. by exists override.
Qed.

Ltac tame_step :=
  first [ apply tame_then | apply tame_last | apply tame_c | apply tame_when
        | apply tame_for_of; intros ? | apply tame_with_type; intros ?
        | apply tame_with_field; intros ? | apply tame_if | apply tame_done ].

Ltac tame_walker names :=
  apply (tame_plain _ names);
  [ apply (bool_decide_unpack _); vm_compute; exact I
  | intros n st; unfold gets; cbn [flat_map]; unfold get; repeat tame_step ].

Ltac redispatch_walker :=
  apply redispatch_plain; intros n st; cbv beta delta -[c includes String.eqb orb];
  repeat match goal with |- context [if ?b then _ else _] => destruct b end;
  eexists; reflexivity.

Lemma ignore_plain : plain_walker Base.ignore.
Proof. tame_walker (@nil string). Qed.

Lemma skipThrough_plain : plain_walker Base.skipThrough.
Proof. redispatch_walker. Qed.

Lemma Statement_plain : plain_walker Base.Statement.
Proof. redispatch_walker. Qed.

Lemma ForInit_plain : plain_walker Base.ForInit.
Proof. redispatch_walker. Qed.

Lemma FunctionDeclaration_plain : plain_walker Base.FunctionDeclaration.
Proof. redispatch_walker. Qed.

Lemma ScopeBody_plain : plain_walker Base.ScopeBody.
Proof. redispatch_walker. Qed.

Lemma ScopeExpression_plain : plain_walker Base.ScopeExpression.
Proof. redispatch_walker. Qed.

Lemma Pattern_plain : plain_walker Base.Pattern.
Proof. redispatch_walker. Qed.

Lemma ClassDeclaration_plain : plain_walker Base.ClassDeclaration.
Proof. redispatch_walker. Qed.

Lemma Program_plain : plain_walker Base.Program.
Proof. tame_walker ["body"]. Qed.

Lemma BlockStatement_plain : plain_walker Base.BlockStatement.
Proof. tame_walker ["body"]. Qed.

Lemma ExpressionStatement_plain : plain_walker Base.ExpressionStatement.
Proof. tame_walker ["expression"]. Qed.

Lemma IfStatement_plain : plain_walker Base.IfStatement.
Proof. tame_walker ["test"; "consequent"; "alternate"]. Qed.

Lemma LabeledStatement_plain : plain_walker Base.LabeledStatement.
Proof. tame_walker ["body"]. Qed.

Lemma WithStatement_plain : plain_walker Base.WithStatement.
Proof. tame_walker ["object"; "body"]. Qed.

Lemma SwitchStatement_plain : plain_walker Base.SwitchStatement.
Proof. tame_walker ["discriminant"; "cases"]. Qed.

Lemma SwitchCase_plain : plain_walker Base.SwitchCase.
Proof. tame_walker ["test"; "consequent"]. Qed.

Lemma ReturnStatement_plain : plain_walker Base.ReturnStatement.
Proof. tame_walker ["argument"]. Qed.

Lemma ThrowStatement_plain : plain_walker Base.ThrowStatement.
Proof. tame_walker ["argument"]. Qed.

Lemma TryStatement_plain : plain_walker Base.TryStatement.
Proof. tame_walker ["block"; "handler"; "finalizer"]. Qed.

Lemma CatchClause_plain : plain_walker Base.CatchClause.
Proof. tame_walker ["param"; "body"]. Qed.

Lemma WhileStatement_plain : plain_walker Base.WhileStatement.
Proof. tame_walker ["test"; "body"]. Qed.

Lemma ForStatement_plain : plain_walker Base.ForStatement.
Proof. tame_walker ["init"; "test"; "update"; "body"]. Qed.

Lemma ForInStatement_plain : plain_walker Base.ForInStatement.
Proof. tame_walker ["left"; "right"; "body"]. Qed.

Lemma VariableDeclaration_plain : plain_walker Base.VariableDeclaration.
Proof. tame_walker ["declarations"]. Qed.

Lemma VariableDeclarator_plain : plain_walker Base.VariableDeclarator.
Proof. tame_walker ["id"; "init"]. Qed.

Lemma Function_plain : plain_walker Base.Function.
Proof. tame_walker ["id"; "params"; "body"]. Qed.

Lemma RestElement_plain : plain_walker Base.RestElement.
Proof. tame_walker ["argument"]. Qed.

Lemma ArrayPattern_plain : plain_walker Base.ArrayPattern.
Proof. tame_walker ["elements"]. Qed.

Lemma ObjectPattern_plain : plain_walker Base.ObjectPattern.
Proof. tame_walker ["properties"]. Qed.

Lemma ArrayExpression_plain : plain_walker Base.ArrayExpression.
Proof. tame_walker ["elements"]. Qed.

Lemma ObjectExpression_plain : plain_walker Base.ObjectExpression.
Proof. tame_walker ["properties"]. Qed.

Lemma TemplateLiteral_plain : plain_walker Base.TemplateLiteral.
Proof. tame_walker ["quasis"; "expressions"]. Qed.

Lemma SequenceExpression_plain : plain_walker Base.SequenceExpression.
Proof. tame_walker ["expressions"]. Qed.

Lemma UnaryExpression_plain : plain_walker Base.UnaryExpression.
Proof. tame_walker ["argument"]. Qed.

Lemma BinaryExpression_plain : plain_walker Base.BinaryExpression.
Proof. tame_walker ["left"; "right"]. Qed.

Lemma AssignmentExpression_plain : plain_walker Base.AssignmentExpression.
Proof. tame_walker ["left"; "right"]. Qed.

Lemma ConditionalExpression_plain : plain_walker Base.ConditionalExpression.
Proof. tame_walker ["test"; "consequent"; "alternate"]. Qed.

Lemma NewExpression_plain : plain_walker Base.NewExpression.
Proof. tame_walker ["callee"; "arguments"]. Qed.

Lemma MemberExpression_plain : plain_walker Base.MemberExpression.
Proof. tame_walker ["object"; "property"]. Qed.

Lemma ExportDefaultDeclaration_plain : plain_walker Base.ExportDefaultDeclaration.
Proof. tame_walker ["declaration"]. Qed.

Lemma ExportNamedDeclaration_plain : plain_walker Base.ExportNamedDeclaration.
Proof. tame_walker ["declaration"; "specifiers"; "source"]. Qed.

Lemma ExportAllDeclaration_plain : plain_walker Base.ExportAllDeclaration.
Proof. tame_walker ["source"]. Qed.

Lemma ImportDeclaration_plain : plain_walker Base.ImportDeclaration.
Proof. tame_walker ["specifiers"; "source"]. Qed.

Lemma TaggedTemplateExpression_plain : plain_walker Base.TaggedTemplateExpression.
Proof. tame_walker ["tag"; "quasi"]. Qed.

Lemma Class_plain : plain_walker Base.Class.
Proof. tame_walker ["id"; "superClass"; "body"]. Qed.

Lemma ClassBody_plain : plain_walker Base.ClassBody.
Proof. tame_walker ["body"]. Qed.

Lemma MethodDefinition_plain : plain_walker Base.MethodDefinition.
Proof. tame_walker ["key"; "value"]. Qed.

Ltac plain_entry :=
  first [ apply ignore_plain
        | apply skipThrough_plain
        | apply Statement_plain
        | apply ForInit_plain
        | apply FunctionDeclaration_plain
        | apply ScopeBody_plain
        | apply ScopeExpression_plain
        | apply Pattern_plain
        | apply ClassDeclaration_plain
        | apply Program_plain
        | apply BlockStatement_plain
        | apply ExpressionStatement_plain
        | apply IfStatement_plain
        | apply LabeledStatement_plain
        | apply WithStatement_plain
        | apply SwitchStatement_plain
        | apply SwitchCase_plain
        | apply ReturnStatement_plain
        | apply ThrowStatement_plain
        | apply TryStatement_plain
        | apply CatchClause_plain
        | apply WhileStatement_plain
        | apply ForStatement_plain
        | apply ForInStatement_plain
        | apply VariableDeclaration_plain
        | apply VariableDeclarator_plain
        | apply Function_plain
        | apply RestElement_plain
        | apply ArrayPattern_plain
        | apply ObjectPattern_plain
        | apply ArrayExpression_plain
        | apply ObjectExpression_plain
        | apply TemplateLiteral_plain
        | apply SequenceExpression_plain
        | apply UnaryExpression_plain
        | apply BinaryExpression_plain
        | apply AssignmentExpression_plain
        | apply ConditionalExpression_plain
        | apply NewExpression_plain
        | apply MemberExpression_plain
        | apply ExportDefaultDeclaration_plain
        | apply ExportNamedDeclaration_plain
        | apply ExportAllDeclaration_plain
        | apply ImportDeclaration_plain
        | apply TaggedTemplateExpression_plain
        | apply Class_plain
        | apply ClassBody_plain
        | apply MethodDefinition_plain ].

Lemma table_plain : Forall (λ entry, plain_walker entry.2) Base.table.
Proof. unfold Base.table. repeat (constructor; [cbn [snd]; plain_entry|]). constructor. Qed.

(** Every walker of the exported registry is plain. *)
Lemma base_plain : plain Walk.base.
Proof.
  intros type walk Hwalk. unfold Walk.base in Hwalk.
  destruct (List.find _ _) as [[name walk']|] eqn:Hfind; [|done].
  injection Hwalk as <-. apply find_some in Hfind as [Hin%list_elem_of_In _].
  pose proof table_plain as Htable. rewrite Forall_forall in Htable.
  by apply (Htable _ Hin).
Qed.

(** *** Trees of calls through a plain registry *)

Lemma calltree_of_unfold base fuel v st ov t :
  calltree_of base fuel v st ov = Some t →
  ∃ fuel' n walk ks,
    fuel = S fuel' ∧ v = VObj n ∧
    base (or_type ov (node_type n)) = Some walk ∧
    calls_of_script (calltree_of base fuel') (walk n st) = Some ks ∧
    t = CallNode (Call_ n st ov) ks.
Proof.
  destruct fuel as [|fuel']; [done|]. cbn.
  destruct v as [| | |n|]; try done.
  destruct (base _) as [walk|] eqn:Hwalk; [|done].
  destruct (calls_of_script _ _) as [ks|] eqn:Hks; [|done].
  intros [= <-]. by exists fuel', n, walk, ks.
Qed.

Lemma calls_of_script_Forall2 (k : value → value → option string → option calltree)
    p ks :
  calls_of_script k p = Some ks →
  Forall2 (λ x t, k x.1.1 x.1.2 x.2 = Some t) (script_calls p) ks.
Proof.
  revert ks. induction p as [| |child st ov rest IH]; intros ks; cbn.
  - intros [= <-]. constructor.
  - done.
  - destruct (k child st ov) as [t|] eqn:Ht; [|done].
    destruct (calls_of_script k rest) as [ts|]; [|done].
    intros [= <-]. constructor; [done|]. by apply IH.
Qed.

Lemma calls_of_script_mono (k k' : value → value → option string → option calltree)
    p ks :
  (∀ child st ov t, k child st ov = Some t → k' child st ov = Some t) →
  calls_of_script k p = Some ks → calls_of_script k' p = Some ks.
Proof.
  intros Hk. revert ks. induction p as [| |child st ov rest IH]; intros ks; cbn; try done.
  destruct (k child st ov) as [t|] eqn:Ht; [|done].
  rewrite (Hk _ _ _ _ Ht).
  destruct (calls_of_script k rest) as [ts|]; [|done].
  by rewrite (IH _ eq_refl).
Qed.

(** More fuel does not change the tree. *)
Lemma calltree_of_mono base fuel fuel' v st ov t :
  calltree_of base fuel v st ov = Some t → (fuel ≤ fuel')%nat →
  calltree_of base fuel' v st ov = Some t.
Proof.
  revert fuel' v st ov t. induction fuel as [|fuel IH]; intros fuel' v st ov t Ht Hle; [done|].
  destruct fuel' as [|fuel']; [lia|]. cbn in *.
  destruct v as [| | |n|]; try done.
  destruct (base _) as [walk|]; [|done].
  destruct (calls_of_script (calltree_of base fuel) _) as [ks|] eqn:Hks; [|done].
  erewrite calls_of_script_mono; [done| |done].
  intros ????. intros. apply IH; [done|lia].
Qed.

Lemma size_kid k d ks : k ∈ ks → (size k < size (CallNode d ks))%nat.
Proof.
  intros Hk. cbn [size]. apply Nat.lt_succ_r.
  induction Hk as [k ks|k k' ks _ IH];
    change (list_sum (map size (?x :: ks))) with (size x + list_sum (map size ks))%nat;
    lia.
Qed.

(** Every call below the root of a tree is the root of the tree of that
    call, a smaller tree that takes less fuel. *)
Lemma calltree_of_below base fuel v st ov t d :
  calltree_of base fuel v st ov = Some t →
  d ∈ flat_map preorder (kids t) →
  ∃ fuel' sub,
    (fuel' < fuel)%nat ∧
    calltree_of base fuel' (VObj (call_node d)) (call_state d) (call_override d)
      = Some sub ∧
    (size sub < size t)%nat.
Proof.
  revert v st ov t d. induction fuel as [|fuel IH]; intros v st ov t d Ht Hd; [done|].
  apply calltree_of_unfold in Ht as (fuel' & n & walk & ks & [= <-] & -> & Hwalk & Hks & ->).
  cbn in Hd. apply elem_of_flat_map in Hd as (k & Hk & Hd).
  apply calls_of_script_Forall2 in Hks.
  destruct (proj1 (list_elem_of_lookup _ _) Hk) as [i Hi].
  destruct (Forall2_lookup_r _ _ _ _ _ Hks Hi) as ([[child st'] ov'] & _ & Hchild).
  cbn in Hchild. pose proof (size_kid _ (Call_ n st ov) _ Hk) as Hsize.
  destruct k as [dk kks]. cbn in Hd. apply elem_of_cons in Hd as [->|Hd].
  - exists fuel, (CallNode dk kks). split; [lia|]. split; [|done].
    pose proof Hchild as Hc.
    apply calltree_of_unfold in Hc as (? & n' & ? & ? & _ & -> & _ & _ & [= -> _]).
    done.
  - destruct (IH _ _ _ _ d Hchild Hd) as (fuel'' & sub & Hlt & Hsub & Hsz).
    exists fuel'', sub. split; [lia|]. split; [done|]. lia.
Qed.

(** The tree of a call depends on the override through the type only. *)
Lemma calltree_of_type base fuel n st ov ov' t :
  calltree_of base fuel (VObj n) st ov = Some t →
  or_type ov' (node_type n) = or_type ov (node_type n) →
  calltree_of base fuel (VObj n) st ov' = Some (CallNode (Call_ n st ov') (kids t)).
Proof.
  destruct fuel as [|fuel]; [done|]. cbn. intros Ht ->.
  destruct (base _) as [walk|]; [|done].
  destruct (calls_of_script _ _) as [ks|]; [|done].
  by injection Ht as <-.
Qed.

(** Through a plain registry every call of the tree of a value is on a
    node of that value, with the state of the first call. *)
Lemma plain_calls base fuel v st ov t :
  plain base →
  calltree_of base fuel v st ov = Some t →
  Forall (λ d, call_node d ∈ subnodes v ∧ call_state d = st) (preorder t).
Proof.
  intros Hplain. revert v st ov t.
  induction fuel as [|fuel IH]; intros v st ov t Ht; [done|].
  apply calltree_of_unfold in Ht as (fuel' & n & walk & ks & [= <-] & -> & Hwalk & Hks & ->).
  cbn [preorder]. constructor.
  { split; [|done]. cbn [call_node]. rewrite subnodes_obj. apply list_elem_of_here. }
  destruct (Hplain _ _ Hwalk n st) as [Hst Hshape].
  apply calls_of_script_Forall2 in Hks.
  apply Forall_flat_map, Forall_forall. intros k Hk.
  destruct (proj1 (list_elem_of_lookup _ _) Hk) as [i Hi].
  destruct (Forall2_lookup_r _ _ _ _ _ Hks Hi) as ([[child st'] ov'] & Hx & Hchild).
  cbn in Hchild. apply list_elem_of_lookup_2 in Hx.
  rewrite Forall_forall in Hst. pose proof (Hst _ Hx) as Hst'. cbn in Hst'. subst st'.
  specialize (IH _ _ _ _ Hchild). eapply Forall_impl; [done|].
  intros d [Hd ->]. split; [|done].
  destruct Hshape as [[override Hself]|Hreach].
  - rewrite Hself in Hx. apply list_elem_of_singleton in Hx. by injection Hx as -> _.
  - rewrite subnodes_obj. apply list_elem_of_further.
    eapply elem_of_submseteq; [|done].
    eapply elem_of_submseteq; [done|].
    by apply (submseteq_flat_map_elem (λ x, subnodes x.1.1) _ (child, st, ov')).
Qed.

(** Through a plain registry a node is not called again under the same
    type below a call on it. *)
Lemma plain_no_repeat base fuel n st ov t d :
  plain base →
  calltree_of base fuel (VObj n) st ov = Some t →
  d ∈ flat_map preorder (kids t) →
  call_node d = n →
  call_type d ≠ or_type ov (node_type n).
Proof.
  intros Hplain Ht Hd Hn Htype.
  destruct (calltree_of_below _ _ _ _ _ _ _ Ht Hd) as (fuel' & sub & Hlt & Hsub & Hsize).
  pose proof (plain_calls _ _ _ _ _ _ Hplain Ht) as Hcalls.
  rewrite Forall_forall in Hcalls.
  assert (Hdt : d ∈ preorder t).
  { destruct t as [d0 ks]. by apply list_elem_of_further. }
  destruct (Hcalls _ Hdt) as [_ Hst]. rewrite Hn, Hst in Hsub.
  apply (calltree_of_type _ _ _ _ _ ov) in Hsub.
  2:{ unfold call_type in Htype. by rewrite Hn in Htype. }
  apply (calltree_of_mono _ _ fuel) in Hsub; [|lia].
  rewrite Ht in Hsub. injection Hsub as ->.
  destruct sub as [ds kss]. cbn [size kids] in Hsize. lia.
Qed.

Lemma NoDup_fmap_eq {A B} (f : A → B) (l : list A) (x y : A) :
  NoDup (f <$> l) → x ∈ l → y ∈ l → f x = f y → x = y.
Proof.
  induction l as [|z l IH]; [by intros _ ?%elem_of_nil|].
  rewrite fmap_cons, NoDup_cons.
  intros [Hz Hl] [->|Hx]%elem_of_cons [->|Hy]%elem_of_cons Hf; auto.
  - exfalso. apply Hz. rewrite Hf. by apply list_elem_of_fmap_2.
  - exfalso. apply Hz. rewrite <- Hf. by apply list_elem_of_fmap_2.
Qed.

Lemma NoDup_fmap_submseteq {A B} (f : A → B) (l k : list A) :
  l ⊆+ k → NoDup (f <$> k) → NoDup (f <$> l).
Proof.
  intros (k' & Hk)%submseteq_Permutation. rewrite Hk, fmap_app.
  by intros (? & _)%NoDup_app.
Qed.

Lemma inner_nodes_inside n m :
  n ∈ inner_nodes m → subnodes (VObj n) ⊆+ inner_nodes m.
Proof.
  unfold inner_nodes.
  intros (f & Hf & Hn)%elem_of_flat_map.
  etrans; [by apply subnodes_inside|].
  by apply (submseteq_flat_map_elem (λ f, subnodes f.2)).
Qed.

Lemma not_inner_self n :
  NoDup (node_addr <$> subnodes (VObj n)) → n ∉ inner_nodes n.
Proof.
  rewrite subnodes_obj, fmap_cons. intros [Hn _]%NoDup_cons Hin.
  apply Hn. by apply list_elem_of_fmap_2.
Qed.

(** Through a plain registry, on a value in which no node object occurs
    twice, no node is called twice under the same type. *)
Lemma plain_pairings base fuel v st ov t :
  plain base →
  NoDup (node_addr <$> subnodes v) →
  calltree_of base fuel v st ov = Some t →
  NoDup (pairing <$> preorder t).
Proof.
  intros Hplain. revert v st ov t.
  induction fuel as [|fuel IH]; intros v st ov t Hv Ht; [done|].
  pose proof Ht as Ht0.
  apply calltree_of_unfold in Ht as (fuel' & n & walk & ks & [= <-] & -> & Hwalk & Hks & ->).
  destruct (Hplain _ _ Hwalk n st) as [Hst Hshape].
  apply calls_of_script_Forall2 in Hks.
  cbn [preorder]. rewrite fmap_cons. apply NoDup_cons.
  destruct Hshape as [[override Hself]|Hreach].
  - rewrite Hself in Hks.
    apply Forall2_cons_inv_l in Hks as (k & ks' & Hk & ->%Forall2_nil_inv_l & ->).
    cbn in Hk. cbn [flat_map]. rewrite app_nil_r. split; [|by eapply IH].
    intros (d & Hpair & Hd)%list_elem_of_fmap. injection Hpair as Haddr Htype.
    pose proof (plain_calls _ _ _ _ _ _ Hplain Hk) as Hcalls.
    rewrite Forall_forall in Hcalls. destruct (Hcalls _ Hd) as [Hin _].
    assert (call_node d = n) as Hn.
    { symmetry. eapply (NoDup_fmap_eq node_addr); [exact Hv| |done|done].
      rewrite subnodes_obj. apply list_elem_of_here. }
    eapply (plain_no_repeat _ _ _ _ _ _ d Hplain Ht0); [|done|done].
    cbn. by rewrite app_nil_r.
  - rewrite subnodes_obj, fmap_cons in Hv. apply NoDup_cons in Hv as [Hn Hinner].
    assert (Hr : NoDup (node_addr <$> reach (walk n st))).
    { by eapply NoDup_fmap_submseteq. }
    assert (Hkids : NoDup (pairing <$> flat_map preorder ks) ∧
              ∀ d, d ∈ flat_map preorder ks →
                   node_addr (call_node d) ∈ node_addr <$> reach (walk n st)).
    { unfold reach in *. clear Hreach Hst Ht0.
      induction Hks as [|[[child st'] ov'] k calls ks Hk Hks IHks]; cbn in *.
      { split; [constructor|]. by intros d ?%elem_of_nil. }
      rewrite fmap_app in Hr. apply NoDup_app in Hr as (Hr1 & Hdis & Hr2).
      destruct (IHks Hr2) as [IH1 IH2].
      pose proof (plain_calls _ _ _ _ _ _ Hplain Hk) as Hcalls.
      rewrite Forall_forall in Hcalls. split.
      - rewrite fmap_app. apply NoDup_app. split; [by eapply IH|]. split; [|done].
        intros pr (d & -> & Hd)%list_elem_of_fmap (d' & Hpair & Hd')%list_elem_of_fmap.
        injection Hpair as Haddr _.
        apply (Hdis (node_addr (call_node d))).
        + apply list_elem_of_fmap_2. by apply Hcalls.
        + rewrite Haddr. by apply IH2.
      - intros d [Hd|Hd]%elem_of_app; rewrite fmap_app, elem_of_app.
        + left. apply list_elem_of_fmap_2. by apply Hcalls.
        + right. by apply IH2. }
    destruct Hkids as [Hk1 Hk2]. split; [|done].
    intros (d & Hpair & Hd)%list_elem_of_fmap. injection Hpair as Haddr _.
    apply Hn. rewrite Haddr.
    specialize (Hk2 _ Hd). apply list_elem_of_fmap in Hk2 as (m & -> & Hm).
    apply list_elem_of_fmap_2. by eapply elem_of_submseteq.
Qed.

(** *** The ancestor sequence *)

Lemma top_snoc (stack : list node) n : top (stack ++ [n]) = Some n.
Proof. apply last_snoc. Qed.

(** What the visitors of an ancestor walk are handed is as long as the
    level of the call is high. *)
Lemma ancestor_visits_levels visitors t :
  ∀ stack,
    (λ e, (avisit_node e, avisit_type e, length (avisit_ancestors e)))
      <$> ancestor_visits visitors stack t
    = (λ x, (call_node x.1, call_type x.1, x.2))
      <$> List.filter (λ x, visitors (call_type x.1))
            (levels (top stack) (length stack) t).
Proof.
  induction t as [d ks IH] using calltree_ind'. intros stack.
  cbn [ancestor_visits levels].
  set (new := differs (call_node d) (top stack)).
  set (stack' := if new then stack ++ [call_node d] else stack).
  assert (Htop : (if new then Some (call_node d) else top stack) = top stack').
  { unfold stack'. destruct new; [by rewrite top_snoc|done]. }
  assert (Hlen : (if new then S (length stack) else length stack) = length stack').
  { unfold stack'. destruct new; [|done]. rewrite length_app. cbn. lia. }
  rewrite Htop, Hlen, List.filter_app, !fmap_app. f_equal.
  - clear -IH. induction IH as [|k ks Hk _ IHks]; cbn; [done|].
    by rewrite List.filter_app, !fmap_app, Hk, IHks.
  - cbn. by destruct (visitors (call_type d)).
Qed.

(** The last element handed over is the visited node itself, and the
    state handed over is the state of the call, or the sequence when that
    state is falsy. *)
Lemma ancestor_visits_last visitors t :
  ∀ stack,
    Forall (λ e, (∃ m, last (avisit_ancestors e) = Some m ∧
                       same_object (avisit_node e) m = true) ∧
                 match avisit_state e with
                 | TheState s => truthy s = true
                 | TheAncestors a => a = avisit_ancestors e
                 end)
           (ancestor_visits visitors stack t).
Proof.
  induction t as [d ks IH] using calltree_ind'. intros stack.
  cbn [ancestor_visits]. apply Forall_app. split.
  - apply Forall_flat_map. eapply Forall_impl; [done|]. cbn. auto.
  - destruct (visitors _); [|constructor]. repeat constructor; cbn.
    + destruct (differs (call_node d) (top stack)) eqn:Hnew.
      * exists (call_node d). split; [apply last_snoc|]. apply Nat.eqb_refl.
      * unfold differs, top in Hnew.
        destruct (last stack) as [m|]; [|done].
        exists m. split; [done|]. by apply negb_false_iff.
    + by destruct (truthy (call_state d)) eqn:?.
Qed.

Lemma ancestor_visits_falsy visitors st t :
  truthy st = false →
  Forall (λ d, call_state d = st) (preorder t) →
  ∀ stack,
    Forall (λ e, avisit_state e = TheAncestors (avisit_ancestors e))
           (ancestor_visits visitors stack t).
Proof.
  intros Hst. induction t as [d ks IH] using calltree_ind'.
  cbn [preorder]. intros [Hd Hks%Forall_flat_map]%Forall_cons stack.
  cbn [ancestor_visits]. apply Forall_app. split.
  - apply Forall_flat_map. rewrite Forall_forall in *. intros k Hk. by apply IH, Hks.
  - destruct (visitors _); [|constructor]. repeat constructor; cbn.
    by rewrite Hd, Hst.
Qed.


Lemma chain_push root stack n :
  NoDup (node_addr <$> subnodes root) →
  chain root stack n →
  let stack' := if differs n (top stack) then stack ++ [n] else stack in
  NoDup (node_addr <$> stack') ∧
  (∀ m, m ∈ stack' → m ∈ subnodes root) ∧
  top stack' = Some n ∧
  ∀ m, m ∈ stack' → m = n ∨ n ∈ inner_nodes m.
Proof.
  intros Hall (Hnodup & Hin & Hn & Hchain). cbn.
  destruct (differs n (top stack)) eqn:Hnew.
  - split; [|split; [|split]].
    + rewrite fmap_app. apply NoDup_app. split; [done|]. split; [|apply NoDup_singleton].
      intros a (m & -> & Hm)%list_elem_of_fmap Ha%list_elem_of_singleton.
      assert (m = n) as ->.
      { apply (NoDup_fmap_eq node_addr (subnodes root)); [done|by apply Hin|done|done]. }
      destruct (Hchain _ Hm) as [[_ Htop]|Hinner].
      * rewrite Htop in Hnew. cbn in Hnew. unfold same_object in Hnew.
        by rewrite Nat.eqb_refl in Hnew.
      * eapply not_inner_self; [|done].
        eapply (NoDup_fmap_submseteq _ _ (subnodes root)); [|done].
        by apply subnodes_inside.
    + intros m [Hm| ->%list_elem_of_singleton]%elem_of_app; auto.
    + apply top_snoc.
    + intros m [Hm| ->%list_elem_of_singleton]%elem_of_app; [|by left].
      destruct (Hchain _ Hm) as [[-> _]|?]; auto.
  - split; [done|]. split; [done|].
    unfold differs in Hnew. destruct (top stack) as [m0|] eqn:Htop; [|done].
    apply negb_false_iff, Nat.eqb_eq in Hnew.
    assert (m0 ∈ stack) as Hm0.
    { unfold top in Htop. apply last_Some in Htop as [l ->].
      apply elem_of_app. right. apply list_elem_of_here. }
    assert (m0 = n) as ->.
    { apply (NoDup_fmap_eq node_addr (subnodes root)); [done|by apply Hin|done|done]. }
    split; [done|]. intros m Hm. destruct (Hchain _ Hm) as [[-> _]|?]; auto.
Qed.

(** Through a plain registry, on a tree in which no node object occurs
    twice, the sequence handed to the visitors never holds a node twice, and
    ends with the visited node. *)
Lemma plain_ancestors visitors base root fuel :
  plain base →
  NoDup (node_addr <$> subnodes root) →
  ∀ n st ov t stack,
    calltree_of base fuel (VObj n) st ov = Some t →
    chain root stack n →
    Forall (λ e, NoDup (node_addr <$> avisit_ancestors e) ∧
                 last (avisit_ancestors e) = Some (avisit_node e))
           (ancestor_visits visitors stack t).
Proof.
  intros Hplain Hall.
  induction fuel as [|fuel IH]; intros n st ov t stack Ht Hchain; [done|].
  apply calltree_of_unfold in Ht as (fuel' & n' & walk & ks & [= <-] & [= <-] & Hwalk & Hks & ->).
  destruct (chain_push _ _ _ Hall Hchain) as (Hnodup & Hin & Htop & Hinner).
  destruct Hchain as (_ & _ & Hn & _).
  cbn [ancestor_visits call_node]. revert Hnodup Hin Htop Hinner.
  generalize (if differs n (top stack) then stack ++ [n] else stack).
  intros stack' Hnodup Hin Htop Hinner.
  apply Forall_app. split; [|by destruct (visitors _); repeat constructor].
  destruct (Hplain _ _ Hwalk n st) as [_ Hshape].
  apply calls_of_script_Forall2 in Hks.
  apply Forall_flat_map, Forall_forall. intros k Hk.
  destruct (proj1 (list_elem_of_lookup _ _) Hk) as [i Hi].
  destruct (Forall2_lookup_r _ _ _ _ _ Hks Hi) as ([[child st'] ov'] & Hx & Hchild).
  cbn in Hchild. apply list_elem_of_lookup_2 in Hx.
  pose proof Hchild as Hc.
  apply calltree_of_unfold in Hc as (? & n' & ? & ? & _ & -> & _ & _ & _).
  apply (IH _ _ _ _ _ Hchild). split; [done|]. split; [done|].
  destruct Hshape as [[override Hself]|Hreach].
  - rewrite Hself in Hx. apply list_elem_of_singleton in Hx. injection Hx as -> _ _.
    split; [done|]. intros m Hm. destruct (Hinner _ Hm) as [->|?]; auto.
  - assert (Hn' : n' ∈ inner_nodes n).
    { eapply elem_of_submseteq; [|done].
      eapply elem_of_submseteq;
        [|by apply (submseteq_flat_map_elem (λ x, subnodes x.1.1) _ (VObj n', st', ov'))].
      change (n' ∈ subnodes (VObj n')).
      rewrite subnodes_obj. apply list_elem_of_here. }
    split.
    + eapply elem_of_submseteq; [|by apply subnodes_inside].
      rewrite subnodes_obj. by apply list_elem_of_further.
    + intros m Hm. right. destruct (Hinner _ Hm) as [->|Hnm]; [done|].
      eapply elem_of_submseteq; [|by apply inner_nodes_inside].
      rewrite subnodes_obj. by apply list_elem_of_further.
Qed.

Lemma NoDup_fmap_count {A B} `{EqDecision B} (f : A → B) (l : list A) (x : A) :
  NoDup (f <$> l) → x ∈ l →
  length (List.filter (λ y, bool_decide (f y = f x)) l) = 1%nat.
Proof.
  induction l as [|z l IH]; [by intros _ ?%elem_of_nil|].
  rewrite fmap_cons, NoDup_cons. intros [Hz Hl] Hx. cbn.
  case_bool_decide as Hzx.
  - cbn. f_equal. apply length_zero_iff_nil, filter_none.
    apply Forall_forall. intros y Hy. apply bool_decide_eq_false.
    intros Hyx. apply Hz. rewrite Hzx, <- Hyx. by apply list_elem_of_fmap_2.
  - apply elem_of_cons in Hx as [->|Hx]; [done|]. by apply IH.
Qed.

(** The visitor calls of [simple] on a list of calls without repeated
    pairings: one per call whose type has a visitor. *)
Lemma count_visits_pairings visitors (l : list call) d :
  NoDup (pairing <$> l) → d ∈ l →
  count_visits (node_addr (call_node d)) (call_type d) (visits visitors l)
    = if visitors (call_type d) then 1%nat else 0%nat.
Proof.
  intros Hl Hd. unfold count_visits, visits.
  assert (Hfilter : ∀ l',
    List.filter (λ e, Nat.eqb (node_addr (visit_node e)) (node_addr (call_node d))
                      && String.eqb (visit_type e) (call_type d))
                (visit_of <$> l')
    = visit_of <$> List.filter (λ y, bool_decide (pairing y = pairing d)) l').
  { intros l'. induction l' as [|y l' IH]; [done|]. cbn. rewrite IH.
    assert (Nat.eqb (node_addr (call_node y)) (node_addr (call_node d))
            && String.eqb (call_type y) (call_type d)
            = bool_decide (pairing y = pairing d)) as ->; [|by case_bool_decide].
    unfold pairing. case_bool_decide as Hp.
    - injection Hp as -> ->. by rewrite Nat.eqb_refl, String.eqb_refl.
    - apply andb_false_iff.
      destruct (Nat.eqb_spec (node_addr (call_node y)) (node_addr (call_node d)));
        [|by left].
      right. apply String.eqb_neq. intros ?. apply Hp. by f_equal. }
  rewrite Hfilter, length_fmap.
  destruct (visitors (call_type d)) eqn:Hvis.
  - apply NoDup_fmap_count.
    + eapply NoDup_fmap_submseteq; [|done]. apply sublist_submseteq.
      clear. induction l as [|y l IH]; cbn; [done|].
      destruct (visitors _); by constructor.
    + apply list_elem_of_In, filter_In. split; [by apply list_elem_of_In|done].
  - apply length_zero_iff_nil, filter_none, Forall_forall.
    intros y [_ Hy]%list_elem_of_In%filter_In. apply bool_decide_eq_false.
    intros [= _ Hty]. congruence.
Qed.

(** *** [simple] and [ancestor] on well-formed trees *)

Lemma flat_map_Permutation {A B} (f g : A → list B) (l : list A) :
  Forall (λ x, f x ≡ₚ g x) l → flat_map f l ≡ₚ flat_map g l.
Proof.
  induction 1 as [|x l Hx _ IH]; cbn; [done|]. by rewrite Hx, IH.
Qed.

Lemma postorder_Permutation t : postorder t ≡ₚ preorder t.
Proof.
  induction t as [d ks IH] using calltree_ind'. cbn.
  rewrite (flat_map_Permutation _ _ _ IH). by rewrite Permutation_app_comm.
Qed.

(** The calls of a subtree stand together in the order of the walk, the
    call at its root last. *)
Lemma postorder_at_path t path sub :
  at_path t path = Some sub →
  ∃ l1 l2, postorder t = l1 ++ postorder sub ++ l2.
Proof.
  revert t. induction path as [|i path IH]; intros t Hsub; cbn in Hsub.
  { injection Hsub as <-. exists [], []. by rewrite app_nil_r. }
  destruct t as [d ks]. cbn in Hsub.
  destruct (ks !! i) as [k|] eqn:Hk; [|done].
  destruct (IH _ Hsub) as (l1 & l2 & Hpost). cbn.
  rewrite (flat_map_lookup _ _ _ _ Hk), Hpost.
  exists (flat_map postorder (take i ks) ++ l1),
         (l2 ++ flat_map postorder (drop (S i) ks) ++ [d]).
  by rewrite <- !app_assoc.
Qed.

(** C3. On a tree in which no node object occurs twice, walked through a
    plain registry (the exported one is plain), [simple] calls the visitor
    of a type once for every pairing of a node and a type that the walkers
    generate, and calls it after all the visitor calls for what is below
    that node: these stand together right before it. *)
Theorem simple_visits_once (base : option registry) (fuel : nat) (root : node)
    (visitors : string → bool) (st : value) (override : option string)
    (t : calltree) :
  plain (or_base base) →
  NoDup (node_addr <$> subnodes (VObj root)) →
  calltree_of (or_base base) fuel (VObj root) st override = Some t →
  ∃ calls,
    simple fuel root visitors base st override = Normal calls ∧
    calls = visits visitors (postorder t) ∧
    NoDup (pairing <$> postorder t) ∧
    (∀ d, d ∈ postorder t →
       count_visits (node_addr (call_node d)) (call_type d) calls
         = if visitors (call_type d) then 1%nat else 0%nat) ∧
    (∀ path sub,
       at_path t path = Some sub →
       ∃ before after,
         calls = before
                 ++ visits visitors (flat_map postorder (kids sub))
                 ++ visits visitors [root_call sub]
                 ++ after).
Proof.
  intros Hplain Hroot Ht. exists (visits visitors (postorder t)).
  assert (Hpairs : NoDup (pairing <$> postorder t)).
  { rewrite postorder_Permutation. by eapply plain_pairings. }
  split; [|split; [done|split; [done|split]]].
  - unfold simple. fold (or_base base).
    by rewrite (simple_c_calltree _ _ _ _ _ _ _ _ Ht).
  - intros d Hd. by apply count_visits_pairings.
  - intros path sub Hsub.
    destruct (postorder_at_path _ _ _ Hsub) as (l1 & l2 & ->).
    exists (visits visitors l1), (visits visitors l2).
    destruct sub as [d ks]. cbn [postorder kids root_call].
    by rewrite !visits_app, <- !app_assoc.
Qed.

(** C6, amended. When the visitor for a node fires in an ancestor walk,
    the sequence it is handed has as many elements as there are nodes on the
    chain of calls from the root to that node (a call on the node of the
    call above it opens no level), its last element is that node, and it is
    the state argument as well when the state is falsy.  On a tree in which
    no node object occurs twice, walked through a plain registry (the
    exported one is plain), it holds no node twice. *)
Theorem ancestor_sequence (base : option registry) (fuel : nat) (root : node)
    (visitors : string → bool) (st : value) (t : calltree) :
  calltree_of (or_base base) fuel (VObj root) st None = Some t →
  ∃ calls,
    ancestor fuel root visitors base st = Normal ([], calls) ∧
    (λ e, (avisit_node e, avisit_type e, length (avisit_ancestors e))) <$> calls
      = (λ x, (call_node x.1, call_type x.1, x.2))
        <$> List.filter (λ x, visitors (call_type x.1)) (levels None 0 t) ∧
    Forall (λ e, (∃ m, last (avisit_ancestors e) = Some m ∧
                       same_object (avisit_node e) m = true) ∧
                 match avisit_state e with
                 | TheState s => truthy s = true
                 | TheAncestors a => a = avisit_ancestors e
                 end) calls ∧
    (plain (or_base base) → NoDup (node_addr <$> subnodes (VObj root)) →
     Forall (λ e, NoDup (node_addr <$> avisit_ancestors e) ∧
                  last (avisit_ancestors e) = Some (avisit_node e)) calls ∧
     (truthy st = false →
      Forall (λ e, avisit_state e = TheAncestors (avisit_ancestors e)) calls)).
Proof.
  intros Ht. exists (ancestor_visits visitors [] t).
  split; [|split; [|split]].
  - unfold ancestor. fold (or_base base).
    by rewrite (ancestor_c_calltree _ _ _ _ _ _ _ _ _ Ht).
  - apply (ancestor_visits_levels visitors t []).
  - apply ancestor_visits_last.
  - intros Hplain Hroot. split.
    + eapply plain_ancestors; [done..|].
      split; [constructor|]. split; [by intros m ?%elem_of_nil|].
      split; [|by intros m ?%elem_of_nil].
      rewrite subnodes_obj. apply list_elem_of_here.
    + intros Hst. apply (ancestor_visits_falsy _ st); [done|].
      eapply Forall_impl; [by eapply plain_calls|]. by intros d [_ ?].
Qed.

End PlainRegistries.

(** ** The claims on sample inputs *)

Section RegistrySamplesProperties.
Import Registry RegistrySamples.

Lemma sample_heap_wf : wf_heap sample_heap.
Proof. intros [|[|[|a]]] o p; cbn; intros [= <-]; done. Qed.

Lemma make_layers_witness :
  wf_heap sample_heap ∧
  (1 < length sample_heap)%nat ∧ (2 < length sample_heap)%nat ∧
  (0 < length sample_heap)%nat ∧
  let derived := make 0%nat 0%nat sample_heap 1%nat None in
  let derived2 := make 0%nat 0%nat derived.1 2%nat (Some derived.2) in
  (∀ type,
     get 0%nat derived.1 derived.2 type
     = if has sample_heap 1%nat type then get 0%nat sample_heap 1%nat type
       else get 0%nat sample_heap 0%nat type) ∧
  (∀ a, (a < length sample_heap)%nat → derived.1 !! a = sample_heap !! a) ∧
  (∀ type,
     get 0%nat derived2.1 derived2.2 type
     = if has sample_heap 2%nat type then get 0%nat sample_heap 2%nat type
       else if has sample_heap 1%nat type then get 0%nat sample_heap 1%nat type
       else get 0%nat sample_heap 0%nat type) ∧
  (∀ a, (a < length derived.1)%nat → derived2.1 !! a = derived.1 !! a).
Proof.
  split; [exact sample_heap_wf|].
  split; [cbn; lia|]. split; [cbn; lia|]. split; [cbn; lia|].
  apply (make_layers 0%nat 0%nat sample_heap 1%nat 2%nat None).
  - exact sample_heap_wf.
  - cbn; lia.
  - cbn; lia.
  - cbn; lia.
Defined.

End RegistrySamplesProperties.

Section WalkSamplesProperties.
Import Walk WalkSamples.

Lemma call_program_tree :
  calltree_of (or_base None) 20 (VObj call_program) VUndefined None
    = Some call_program_calls.
Proof. vm_compute. reflexivity. Qed.

Lemma three_statements_tree :
  calltree_of (or_base None) 20 (VObj three_statements) VUndefined None
    = Some three_statements_calls.
Proof. vm_compute. reflexivity. Qed.

Lemma pattern_program_tree :
  calltree_of (or_base None) 20 (VObj pattern_program) VUndefined None
    = Some pattern_program_calls.
Proof. vm_compute. reflexivity. Qed.

Lemma call_program_distinct :
  NoDup (node_addr <$> subnodes (VObj call_program)).
Proof. apply (bool_decide_unpack _). vm_compute. exact I. Qed.

Lemma pattern_program_distinct :
  NoDup (node_addr <$> subnodes (VObj pattern_program)).
Proof. apply (bool_decide_unpack _). vm_compute. exact I. Qed.

Lemma simple_visits_once_witness :
  plain (or_base None) ∧
  NoDup (node_addr <$> subnodes (VObj call_program)) ∧
  calltree_of (or_base None) 20 (VObj call_program) VUndefined None
    = Some call_program_calls ∧
  ∃ calls,
    simple 20 call_program identifiers None VUndefined None
      = Normal calls ∧
    calls = visits identifiers (postorder call_program_calls) ∧
    NoDup (pairing <$> postorder call_program_calls) ∧
    (∀ d, d ∈ postorder call_program_calls →
       count_visits (node_addr (call_node d)) (call_type d) calls
         = if identifiers (call_type d) then 1%nat else 0%nat) ∧
    (∀ path sub,
       at_path call_program_calls path = Some sub →
       ∃ before after,
         calls = before
                 ++ visits identifiers (flat_map postorder (kids sub))
                 ++ visits identifiers [root_call sub]
                 ++ after).
Proof.
  split; [exact base_plain|]. split; [exact call_program_distinct|].
  split; [exact call_program_tree|].
  apply (simple_visits_once None 20 call_program identifiers VUndefined None
           call_program_calls).
  - exact base_plain.
  - exact call_program_distinct.
  - exact call_program_tree.
Defined.

(** C6, as stated, fails: in [var {a: b} = c] the identifier [b] lies at
    depth 6 of the tree (program, declaration, declarator, pattern,
    property, identifier), and its visitor is handed a sequence of 5 nodes:
    the walker of [ObjectPattern] calls the continuation on the values of
    the properties and passes over the [Property] nodes. *)
Lemma ancestor_passes_over_property :
  ∃ calls e,
    ancestor 20 pattern_program identifiers None VUndefined = Normal ([], calls) ∧
    e ∈ calls ∧
    avisit_node e = pattern_target ∧
    raw_depth (node_addr (avisit_node e)) (VObj pattern_program) = Some 6%nat ∧
    length (avisit_ancestors e) = 5%nat.
Proof.
  eexists _, _. split; [vm_compute; reflexivity|].
  split; [apply list_elem_of_here|]. split; [reflexivity|].
  split; vm_compute; reflexivity.
Qed.

Lemma ancestor_sequence_witness :
  calltree_of (or_base None) 20 (VObj pattern_program) VUndefined None
    = Some pattern_program_calls ∧
  plain (or_base None) ∧
  NoDup (node_addr <$> subnodes (VObj pattern_program)) ∧
  truthy VUndefined = false ∧
  ∃ calls,
    ancestor 20 pattern_program identifiers None VUndefined
      = Normal ([], calls) ∧
    (λ e, (avisit_node e, avisit_type e, length (avisit_ancestors e))) <$> calls
      = (λ x, (call_node x.1, call_type x.1, x.2))
        <$> List.filter (λ x, identifiers (call_type x.1))
              (levels None 0 pattern_program_calls) ∧
    Forall (λ e, (∃ m, last (avisit_ancestors e) = Some m ∧
                       same_object (avisit_node e) m = true) ∧
                 match avisit_state e with
                 | TheState s => truthy s = true
                 | TheAncestors a => a = avisit_ancestors e
                 end) calls ∧
    Forall (λ e, NoDup (node_addr <$> avisit_ancestors e) ∧
                 last (avisit_ancestors e) = Some (avisit_node e)) calls ∧
    Forall (λ e, avisit_state e = TheAncestors (avisit_ancestors e)) calls.
Proof.
  split; [exact pattern_program_tree|]. split; [exact base_plain|].
  split; [exact pattern_program_distinct|]. split; [reflexivity|].
  destruct (ancestor_sequence None 20 pattern_program identifiers VUndefined
              pattern_program_calls pattern_program_tree)
    as (calls & Hrun & Hlevels & Hlast & Hplain).
  destruct (Hplain base_plain pattern_program_distinct) as [Hdistinct Hstate].
  exists calls. split; [exact Hrun|]. split; [exact Hlevels|].
  split; [exact Hlast|]. split; [exact Hdistinct|]. exact (Hstate eq_refl).
Defined.


(** The example of the specification: in [f(g(x))], around offset 4, the
    call expression found is the inner one. *)
Example findNodeAround_inner_call :
  findNodeAround 20 call_program 4 (TestString "CallExpression") None VUndefined
    = Returns (Some (mkFound inner_call VUndefined)).
Proof. vm_compute. reflexivity. Qed.




(** The example of the specification: before offset 15, the statement
    found is the one that ends at 12. *)
Example findNodeBefore_second_statement :
  findNodeBefore 20 three_statements 15 (TestString "Statement") None VUndefined
    = Returns (Some (mkFound second_statement VUndefined)).
Proof. vm_compute. reflexivity. Qed.

Lemma findNodeBefore_first_of_widest_witness :
  calltree_of (or_base None) 20 (VObj three_statements) VUndefined None
    = Some three_statements_calls ∧
  findNodeBefore 20 three_statements 5 TestNull None VUndefined
    = Returns (Some (mkFound first_statement VUndefined)) ∧
  nested three_statements_calls = true ∧
  spanned three_statements_calls = true ∧
  ∃ i d,
    mkFound first_statement VUndefined = found_of d ∧
    first_widest 5 (makeTest TestNull) (before_scan 5 three_statements_calls) i d ∧
    ∀ path sub,
      at_path three_statements_calls path = Some sub →
      before_match 5 (makeTest TestNull) (root_call sub) = true →
      node_end (call_node (root_call sub))
        = node_end (found_node (mkFound first_statement VUndefined)) →
      ∃ l1 l2,
        before_scan 5 three_statements_calls
          = l1 ++ (root_call sub :: flat_map (before_scan 5) (kids sub)) ++ l2 ∧
        (i ≤ length l1)%nat.
Proof.
  assert (Hfound : findNodeBefore 20 three_statements 5 TestNull None VUndefined
                   = Returns (Some (mkFound first_statement VUndefined)))
    by (vm_compute; reflexivity).
  assert (Hnested : nested three_statements_calls = true)
    by (vm_compute; reflexivity).
  assert (Hspanned : spanned three_statements_calls = true)
    by (vm_compute; reflexivity).
  split; [exact three_statements_tree|]. split; [exact Hfound|].
  split; [exact Hnested|]. split; [exact Hspanned|].
  destruct (findNodeBefore_first_of_widest None 20 three_statements 5 TestNull
              VUndefined three_statements_calls
              (mkFound first_statement VUndefined)
              three_statements_tree Hfound)
    as (i & d & Hd & Hfirst & Htie).
  exists i, d. split; [exact Hd|]. split; [exact Hfirst|].
  exact (Htie Hnested Hspanned).
Defined.


(** One node is tested under several names: the identifier [f] of
    [f(g(x))] is found as an ["Expression"] and as an ["Identifier"]. *)
Example findNodeAt_category_and_type :
  findNodeAt 20 call_program (Some 0) (Some 1) (TestString "Expression") None
      VUndefined = Returns (Some (mkFound (identifier 3 0 1) VUndefined)) ∧
  findNodeAt 20 call_program (Some 0) (Some 1) (TestString "Identifier") None
      VUndefined = Returns (Some (mkFound (identifier 3 0 1) VUndefined)) ∧
  findNodeAt 20 call_program (Some 0) (Some 1) (TestString "Statement") None
      VUndefined = Returns None.
Proof. repeat split; vm_compute; reflexivity. Qed.

End WalkSamplesProperties.
